(** * Incremental PNG -> WebP converter: cache store, per-file state machine,
      directory walker and permit pools of [builder/converter.py].

    The development is a shallow embedding of the Python module.

    - Data.  Python dictionaries that are only ever used as finite maps are
      [gmap]s; the ["files"] object of the lock document keeps its insertion
      order, since [load_lock_file] iterates over it and later folders
      override earlier ones.  Paths are lists of components, printed the
      POSIX way.
    - Files.  The input side is a tree that a run only reads.  The output
      side is a set of directories and a map of binary files; the JSON files
      live in a name space of their own, so no directory or artifact is
      called like the lock file.  A JSON file holds the document that was
      dumped into it, or nothing right after it was opened for writing.
    - Effects.  Functions pass a [world] along and return a [result]: a
      value, a raised exception, or suspension on a lock.  The collaborators
      outside the module (SHA-256, the Pillow encoder, the wall clock) are
      fields of an environment record.
    - Concurrency.  [process_directory] runs the tasks it gathers to
      completion in dispatch order, which is one of the schedules of
      [asyncio.gather]; [schedule] describes all of them, for the claims
      about what comes before what; [Pool] is the transition system of the
      semaphores, for the claims about how many conversions run at once. *)

From Stdlib Require Import Ascii String List Lia.
From stdpp Require Import base option gmap strings list fin_maps sets pretty.

Set Warnings "-clear-no-such-hyp".

Open Scope string_scope.
Open Scope list_scope.

(** ** Paths ([pathlib.Path]) *)

(** A path is its list of components; the empty list is the path ["."]. *)
Abbreviation path := (list string).

Definition bytes := list Byte.byte.

Module PyPath.

(** [str(p)] for a relative path. *)
Definition str (p : path) : string :=
  match p with
  | [] => "."
  | c :: cs => fold_left (fun acc x => acc +:+ "/" +:+ x) cs c
  end.

(** [p.parent]; the parent of ["."] is ["."]. *)
Definition parent (p : path) : path := removelast p.

(** [p.name]. *)
Definition name (p : path) : string := default "" (last p).

(** [p / c]. *)
Definition join (p : path) (c : string) : path := p ++ [c].

(** [p.relative_to(base)]: [None] stands for the [ValueError] raised
    when [base] is not a prefix of [p]. *)
Fixpoint relative_to (p base : path) {struct base} : option path :=
  match base with
  | [] => Some p
  | b :: base' =>
      match p with
      | [] => None
      | c :: p' => if decide (c = b) then relative_to p' base' else None
      end
  end.

(** [name.rfind('.')] *)
Fixpoint rfind_dot (s : string) (i : nat) : option nat :=
  match s with
  | EmptyString => None
  | String c s' =>
      match rfind_dot s' (S i) with
      | Some j => Some j
      | None => if Ascii.eqb c "."%char then Some i else None
      end
  end.

(** [PurePath.stem]: the name without its last suffix; a name whose only
    dot is leading or trailing has no suffix. *)
Definition stem_of (nm : string) : string :=
  match rfind_dot nm 0 with
  | Some i =>
      if (0 <? i)%nat && (i <? String.length nm - 1)%nat
      then substring 0 i nm
      else nm
  | None => nm
  end.

Definition stem (p : path) : string := stem_of (name p).

(** [fnmatch(name, "*.png")]: the name ends in [.png]. *)
Definition matches_png (nm : string) : bool :=
  let n := String.length nm in
  (4 <=? n)%nat && String.eqb (substring (n - 4) 4 nm) ".png".

End PyPath.

(** ** Cache data model *)

(** A cache entry is a [Dict[str, str]]. *)
Abbreviation entry := (gmap string string).

(** The in-memory cache, [Dict[str, Dict[str, str]]], keyed by the path of
    the source file relative to the input root. *)
Abbreviation hashes := (gmap string entry).

Record metadata := Metadata {
  last_update : string;
  total_files : nat;
  version : string;
}.

(** A parsed lock document.  [DocNested] is an object with a ["files"] key
    holding the per-folder objects in document order, and optionally a
    ["metadata"] object; [DocFlat] is any other object of entries. *)
Inductive document :=
  | DocNested (meta : option metadata) (files : list (string * hashes))
  | DocFlat (data : hashes).

(** State of a text file that is read back with [json.load]: just opened
    for writing (empty, not a JSON text) or holding one dumped document. *)
Inductive lock_state :=
  | Truncated
  | Holds (d : document).

Inductive exn :=
  | KeyError (key : string)
  | ValueError
  | JSONDecodeError
  | IsADirectoryError (p : path)
  | NotADirectoryError (p : path)
  | FileExistsError (p : path).

(** Outcome of a coroutine: a value, a raised exception, or suspension on a
    lock that somebody else holds. *)
Inductive result (A : Type) :=
  | Ok (a : A)
  | Raised (e : exn)
  | Suspended.
Arguments Ok {A} a.
Arguments Raised {A} e.
Arguments Suspended {A}.

#[global] Instance result_bind : MBind result := fun A B k r =>
  match r with
  | Ok a => k a
  | Raised e => Raised e
  | Suspended => Suspended
  end.

(** ** Logging *)

Inductive log_record :=
  | InfoSkipping (folder_display name : string)
  | InfoConverting (folder_display name : string)
  | InfoConverted (folder_display name : string)
  | ErrorConverting (input_path : path) (cause : string)
  | ErrorFailed (folder_display name : string)
  | InfoCompleted.

(** ** The world a run executes in *)

Record world := World {
  w_dirs : gset path;              (* directories of the output side *)
  w_files : gmap path bytes;       (* binary files of the output side *)
  w_lock : gmap path lock_state;   (* JSON text files, a name space apart *)
  w_locks : list bool;             (* asyncio.Lock objects; true = held *)
  w_clock : nat;                   (* number of datetime.now() calls *)
  w_log : list log_record;         (* logger output, oldest first *)
}.

Definition set_lock (f : gmap path lock_state -> gmap path lock_state)
    (w : world) : world :=
  World (w_dirs w) (w_files w) (f (w_lock w)) (w_locks w) (w_clock w) (w_log w).

Definition set_locks (f : list bool -> list bool) (w : world) : world :=
  World (w_dirs w) (w_files w) (w_lock w) (f (w_locks w)) (w_clock w) (w_log w).

Definition set_files (f : gmap path bytes -> gmap path bytes)
    (w : world) : world :=
  World (w_dirs w) (f (w_files w)) (w_lock w) (w_locks w) (w_clock w) (w_log w).

Definition set_dirs (f : gset path -> gset path) (w : world) : world :=
  World (f (w_dirs w)) (w_files w) (w_lock w) (w_locks w) (w_clock w) (w_log w).

Definition tick (w : world) : world :=
  World (w_dirs w) (w_files w) (w_lock w) (w_locks w) (S (w_clock w)) (w_log w).

Definition logger (r : log_record) (w : world) : world :=
  World (w_dirs w) (w_files w) (w_lock w) (w_locks w) (w_clock w)
        (w_log w ++ [r]).

(** ** Collaborators outside the module *)

Record webp_settings := WebpSettings {
  quality : nat;
  method : nat;
  lossless : bool;
  exact : bool;
  minimize_size : bool;
  alpha_quality : nat;
}.

Definition WEBP_SETTINGS : webp_settings :=
  WebpSettings 85 6 false true true 90.

Definition MAX_CONCURRENT_OPERATIONS : nat := 5.

Inductive codec_result :=
  | Encoded (webp : bytes)
  | CodecError (cause : string).

Record env := Env {
  sha256_hexdigest : bytes -> string; (* hashlib.sha256(..).hexdigest() *)
  pil_encode : webp_settings -> path -> bytes -> codec_result;
                                      (* Image.open(p).save(.., "WEBP", **settings) *)
  isoformat : nat -> string;          (* datetime.now().isoformat() *)
}.

(** ** asyncio.Lock *)

Module Lock.

(** [asyncio.Lock()]: a new, unlocked lock; its identity is its index. *)
Definition alloc (w : world) : nat * world :=
  (length (w_locks w), set_locks (fun ls => ls ++ [false]) w).

(** [await lock.acquire()]: proceeds only when the lock is free. *)
Definition acquire (l : nat) (w : world) : result world :=
  match w_locks w !! l with
  | Some false => Ok (set_locks (fun ls => <[l := true]> ls) w)
  | _ => Suspended
  end.

Definition release (l : nat) (w : world) : world :=
  set_locks (fun ls => <[l := false]> ls) w.

End Lock.

(** ** CacheStore: [load_lock_file] *)

(** [flat_hashes.update(folder_files)] for each folder in document order:
    an entry of a later folder replaces one of an earlier folder. *)
Definition flatten (files : list (string * hashes)) : hashes :=
  fold_left (fun flat_hashes folder_files => folder_files.2 ∪ flat_hashes)
            files ∅.

(** The body of [load_lock_file] once the document is parsed. *)
Definition flatten_document (data : document) : result hashes :=
  match data with
  | DocNested _ files => Ok (flatten files)
  | DocFlat d =>
      match d !! "files" with
      | None => Ok d
      | Some e =>
          (* ["files"] holds an entry: [update] is fed its string values;
             the empty string is an empty sequence of pairs, anything else
             is rejected *)
          if decide (map_Forall (fun _ v => v = "") e) then Ok ∅
          else Raised ValueError
      end
  end.

Definition load_lock_file (lock_file : path) (w : world)
    : result (hashes * world) :=
  match w_lock w !! lock_file with
  | Some st =>
      let '(l, w1) := Lock.alloc w in
      w2 ← Lock.acquire l w1;
      match st with
      | Truncated => Raised JSONDecodeError
      | Holds data =>
          flat ← flatten_document data;
          Ok (flat, Lock.release l w2)
      end
  | None => Ok (∅, w)
  end.

(** ** CacheStore: [save_lock_file] *)

(** [if folder not in files: files[folder] = {}; files[folder][k] = e] on
    the insertion-ordered ["files"] object. *)
Fixpoint files_put (folder k : string) (e : entry)
    (files : list (string * hashes)) : list (string * hashes) :=
  match files with
  | [] => [(folder, {[k := e]})]
  | (f, m) :: rest =>
      if decide (f = folder) then (f, <[k := e]> m) :: rest
      else (f, m) :: files_put folder k e rest
  end.

Definition folder_of (file_data : entry) : string :=
  default "root" (file_data !! "folder").

Definition organize (h : hashes) : list (string * hashes) :=
  map_fold (fun file_path file_data files =>
              files_put (folder_of file_data) file_path file_data files)
           [] h.

Definition organized_hashes (E : env) (h : hashes) (w : world) : document :=
  DocNested
    (Some (Metadata (isoformat E (w_clock w)) (size h) "1.0"))
    (organize h).

(** File-system steps, in the order the interpreter issues them. *)
Inductive fs_op :=
  | OpenW (p : path)                     (* open(p, "w"): create or truncate *)
  | Dump (p : path) (d : document)       (* json.dump(d, f) and close *)
  | Rename (src dst : path).             (* os.replace(src, dst) *)

Definition apply_op (op : fs_op) (fs : gmap path lock_state)
    : gmap path lock_state :=
  match op with
  | OpenW p => <[p := Truncated]> fs
  | Dump p d => <[p := Holds d]> fs
  | Rename src dst =>
      match fs !! src with
      | Some c => <[dst := c]> (delete src fs)
      | None => fs
      end
  end.

Definition apply_ops (ops : list fs_op) (fs : gmap path lock_state)
    : gmap path lock_state :=
  fold_left (fun fs op => apply_op op fs) ops fs.

(** The steps of the [with open(lock_file, "w")] block. *)
Definition save_ops (lock_file : path) (d : document) : list fs_op :=
  [OpenW lock_file; Dump lock_file d].

Definition save_lock_file (E : env) (lock_file : path) (h : hashes)
    (w : world) : result world :=
  let d := organized_hashes E h w in
  let w0 := tick w in
  let '(l, w1) := Lock.alloc w0 in
  w2 ← Lock.acquire l w1;
  Ok (Lock.release l (set_lock (apply_ops (save_ops lock_file d)) w2)).

(** ** ContentHasher *)

Definition _calculate_file_hash (E : env) (content : bytes) : string :=
  sha256_hexdigest E content.

(** ** The input tree *)

(** What [glob] and [iterdir] see below the input root: a regular file with
    its bytes, or a directory with its named children in listing order. *)
#[warnings="-register-all"]
Inductive node :=
  | File (content : bytes)
  | Directory (children : list (string * node)).

(** [calculate_file_hash(png_file)] on the input side: [open] refuses a
    directory. *)
Definition calculate_file_hash (E : env) (file_path : path) (n : node)
    : result string :=
  match n with
  | File content => Ok (_calculate_file_hash E content)
  | Directory _ => Raised (IsADirectoryError file_path)
  end.

(** ** The output side of the file system *)

(** The empty path is the working directory, which always exists. *)
Definition is_dir (w : world) (p : path) : bool :=
  bool_decide (p = []) || bool_decide (p ∈ w_dirs w).

Definition path_exists (w : world) (p : path) : bool :=
  bool_decide (is_Some (w_files w !! p)) || is_dir w p.

(** The path itself and its ancestors, outermost first. *)
Definition with_parents (p : path) : list path :=
  map (fun n => take n p) (seq 1 (length p)).

(** [p.mkdir(parents=True, exist_ok=True)]: a regular file in the way is an
    error, existing directories are not. *)
Definition mkdir_parents (p : path) (w : world) : result world :=
  match List.find (fun q => bool_decide (is_Some (w_files w !! q)))
                  (with_parents p) with
  | Some q =>
      if decide (q = p) then Raised (FileExistsError p)
      else Raised (NotADirectoryError q)
  | None => Ok (set_dirs (fun ds => ds ∪ list_to_set (with_parents p)) w)
  end.

(** [Image.open(input_path).save(output_path, "WEBP", **settings)]: opening
    may fail on the source, the codec on the picture, the write on the
    target. *)
Definition pil_save (E : env) (settings : webp_settings) (input_path : path)
    (n : node) (output_path : path) (w : world) : string + world :=
  match n with
  | Directory _ => inl "Is a directory"
  | File content =>
      match pil_encode E settings input_path content with
      | CodecError cause => inl cause
      | Encoded webp =>
          if is_dir w (PyPath.parent output_path)
          then
            if is_dir w output_path
            then inl "Is a directory"
            else inr (set_files (fun fs => <[output_path := webp]> fs) w)
          else inl "No such file or directory"
      end
  end.

(** ** ConversionWorker: [convert_image] *)

(** The permit pool a conversion draws from, named after the
    [process_directory] call that created it.  One task runs at a time in
    this sequential reading, so the permit is always granted; contention is
    the subject of [Module Pool]. *)
Abbreviation semaphore := path.

Definition convert_image (E : env) (input_path : path) (n : node)
    (output_path : path) (settings : webp_settings) (sem : semaphore)
    (w : world) : option string * world :=
  match pil_save E settings input_path n output_path w with
  | inr w1 =>
      match w_files w1 !! output_path with
      | Some webp => (Some (_calculate_file_hash E webp), w1)
      | None =>
          (None,
           logger (ErrorConverting input_path "No such file or directory") w1)
      end
  | inl cause => (None, logger (ErrorConverting input_path cause) w)
  end.

(** ** Per-file state machine: [process_file] *)

(** Python truthiness of an [Optional[str]]. *)
Definition truthy (s : option string) : bool :=
  match s with
  | Some s => negb (String.eqb s "")
  | None => false
  end.

Definition new_entry (input_hash output_hash folder original_name webp_name
    last_conversion : string) : entry :=
  <["input_hash" := input_hash]>
  (<["output_hash" := output_hash]>
  (<["folder" := folder]>
  (<["original_name" := original_name]>
  (<["webp_name" := webp_name]>
  (<["last_conversion" := last_conversion]> ∅))))).

Definition webp_file_of (png_file output_path : path) : path :=
  PyPath.join output_path (PyPath.stem png_file +:+ ".webp").

Definition folder_display_of (relative_path : path) : string :=
  let folder_structure := PyPath.str (PyPath.parent relative_path) in
  if decide (folder_structure = ".") then "root" else folder_structure.

(** The guard of the skip branch, with Python's left-to-right [and]:
    [Ok (Some e)] when the stored entry [e] is reused. *)
Definition reusable (conversion_hashes : hashes) (hash_key input_hash : string)
    (webp_file : path) (w : world) : result (option entry) :=
  match conversion_hashes !! hash_key with
  | None => Ok None
  | Some e =>
      match e !! "input_hash" with
      | None => Raised (KeyError "input_hash")
      | Some stored =>
          if bool_decide (input_hash = stored) && path_exists w webp_file
          then Ok (Some e)
          else Ok None
      end
  end.

(** Lines 136-154: convert, then record the entry or the failure. *)
Definition convert_and_record (E : env) (png_file : path) (n : node)
    (webp_file relative_path : path) (input_hash : string) (sem : semaphore)
    (new_hashes : hashes) (w : world) : hashes * world :=
  let hash_key := PyPath.str relative_path in
  let folder_display := folder_display_of relative_path in
  let w1 := logger (InfoConverting folder_display (PyPath.name png_file)) w in
  let '(output_hash, w2) :=
    convert_image E png_file n webp_file WEBP_SETTINGS sem w1 in
  if truthy output_hash then
    (<[hash_key :=
         new_entry input_hash (default "" output_hash)
           (PyPath.str (PyPath.parent relative_path))
           (PyPath.name png_file) (PyPath.name webp_file)
           (isoformat E (w_clock w2))]> new_hashes,
     logger (InfoConverted folder_display (PyPath.name png_file)) (tick w2))
  else
    (new_hashes,
     logger (ErrorFailed folder_display (PyPath.name png_file)) w2).

Definition process_file (E : env) (png_file : path) (n : node)
    (output_path : path) (conversion_hashes : hashes)
    (base_input_path : path) (sem : semaphore) (new_hashes : hashes)
    (w : world) : result (hashes * world) :=
  match PyPath.relative_to png_file base_input_path with
  | None => Raised ValueError
  | Some relative_path =>
      let webp_file := webp_file_of png_file output_path in
      input_hash ← calculate_file_hash E png_file n;
      let hash_key := PyPath.str relative_path in
      let folder_display := folder_display_of relative_path in
      cached ← reusable conversion_hashes hash_key input_hash webp_file w;
      match cached with
      | Some e =>
          Ok (<[hash_key := e]> new_hashes,
              logger (InfoSkipping folder_display (PyPath.name png_file)) w)
      | None =>
          Ok (convert_and_record E png_file n webp_file relative_path
                input_hash sem new_hashes w)
      end
  end.

(** ** TreeWalker: [process_directory] *)

(** The tasks of a call are run one after the other, the file tasks first and
    then the sub-directories, as [tasks] lists them.  An exception of a task
    is the exception of the call. *)

(** [input_path.glob("*.png")]: every child whose name matches, whatever
    its kind. *)
Definition glob_png (children : list (string * node)) : list (string * node) :=
  List.filter (fun c => PyPath.matches_png c.1) children.

(** The file tasks of one level, run in dispatch order; they share the
    [new_hashes] dictionary of the call. *)
Fixpoint file_tasks (E : env) (pngs : list (string * node))
    (input_path output_path : path) (conversion_hashes : hashes)
    (base_input_path : path) (sem : semaphore) (new_hashes : hashes)
    (w : world) : result (hashes * world) :=
  match pngs with
  | [] => Ok (new_hashes, w)
  | (nm, n) :: rest =>
      '(new_hashes1, w1) ←
        process_file E (PyPath.join input_path nm) n output_path
          conversion_hashes base_input_path sem new_hashes w;
      file_tasks E rest input_path output_path conversion_hashes
        base_input_path sem new_hashes1 w1
  end.

(** The sub-directory tasks of one level ([subdir.is_dir()]), each run by
    [rec], with their results in dispatch order. *)
Fixpoint subdir_tasks
    (rec : node -> path -> path -> world -> result (hashes * world))
    (children : list (string * node)) (input_path output_path : path)
    (w : world) : result (list hashes * world) :=
  match children with
  | [] => Ok ([], w)
  | (nm, c) :: rest =>
      match c with
      | Directory _ =>
          '(r, w1) ←
            rec c (PyPath.join input_path nm) (PyPath.join output_path nm) w;
          '(rs, w2) ← subdir_tasks rec rest input_path output_path w1;
          Ok (r :: rs, w2)
      | File _ => subdir_tasks rec rest input_path output_path w
      end
  end.

(** [new_hashes.update(result)] for each sub-directory result. *)
Definition merge_results (new_hashes : hashes) (results : list hashes) : hashes :=
  fold_left (fun acc r => r ∪ acc) results new_hashes.

Fixpoint process_directory (E : env) (n : node) (input_path output_path : path)
    (conversion_hashes : hashes) (base_input_path : option path)
    (w : world) {struct n} : result (hashes * world) :=
  match n with
  | File _ => Raised (NotADirectoryError input_path)
  | Directory children =>
      let base := default input_path base_input_path in
      w1 ← mkdir_parents output_path w;
      let sem : semaphore := input_path in
      '(new_hashes, w2) ←
        file_tasks E (glob_png children) input_path output_path
          conversion_hashes base sem ∅ w1;
      '(results, w3) ←
        subdir_tasks
          (fun c i o w' =>
             process_directory E c i o conversion_hashes (Some base) w')
          children input_path output_path w2;
      Ok (merge_results new_hashes results, w3)
  end.

(** ** Orchestrator: [async_main] *)

Definition lock_file_of (output_path : path) : path :=
  PyPath.join output_path "conversion.lock".

Definition async_main (E : env) (input : node) (input_path output_path : path)
    (w : world) : result world :=
  let lock_file := lock_file_of output_path in
  w1 ← mkdir_parents output_path w;
  '(conversion_hashes, w2) ← load_lock_file lock_file w1;
  '(new_hashes, w3) ←
    process_directory E input input_path output_path conversion_hashes None w2;
  w4 ← save_lock_file E lock_file new_hashes w3;
  Ok (logger InfoCompleted w4).

(** ** The walk as a list of steps *)

(** What one [process_directory] call does, in program order: create the
    output directory, create its permit pool, dispatch one task per matching
    child, recurse into the sub-directories. *)
Inductive step :=
  | StepMkdir (output_path : path)
  | StepSemaphore (sem : semaphore)
  | StepFile (png_file : path) (n : node) (output_path : path) (sem : semaphore)
  | StepNotDir (input_path : path).

Fixpoint plan (n : node) (input_path output_path : path) : list step :=
  match n with
  | File _ => [StepNotDir input_path]
  | Directory children =>
      StepMkdir output_path :: StepSemaphore input_path ::
      map (fun c => StepFile (PyPath.join input_path c.1) c.2 output_path input_path)
          (glob_png children)
      ++ (fix subplans (cs : list (string * node)) : list step :=
            match cs with
            | [] => []
            | (nm, c) :: cs' =>
                match c with
                | Directory _ =>
                    plan c (PyPath.join input_path nm) (PyPath.join output_path nm)
                | File _ => []
                end ++ subplans cs'
            end) children
  end.

Definition run_step (E : env) (conversion_hashes : hashes) (base : path)
    (s : step) (new_hashes : hashes) (w : world) : result (hashes * world) :=
  match s with
  | StepMkdir output_path =>
      w1 ← mkdir_parents output_path w; Ok (new_hashes, w1)
  | StepSemaphore _ => Ok (new_hashes, w)
  | StepFile png_file n output_path sem =>
      process_file E png_file n output_path conversion_hashes base sem
        new_hashes w
  | StepNotDir input_path => Raised (NotADirectoryError input_path)
  end.

Fixpoint run_steps (E : env) (conversion_hashes : hashes) (base : path)
    (ss : list step) (new_hashes : hashes) (w : world)
    : result (hashes * world) :=
  match ss with
  | [] => Ok (new_hashes, w)
  | s :: ss' =>
      '(new_hashes1, w1) ← run_step E conversion_hashes base s new_hashes w;
      run_steps E conversion_hashes base ss' new_hashes1 w1
  end.

(** The cache key of a file task. *)
Definition key_of (base png_file : path) : string :=
  match PyPath.relative_to png_file base with
  | Some relative_path => PyPath.str relative_path
  | None => ""
  end.

Definition task_keys (base : path) (ss : list step) : list string :=
  omap (fun s => match s with
                 | StepFile png_file _ _ _ => Some (key_of base png_file)
                 | _ => None
                 end) ss.

(** The relative paths of the directories of a tree, the root first. *)
Fixpoint directories (n : node) (rel : path) : list path :=
  match n with
  | File _ => []
  | Directory children =>
      rel :: (fix subdirs (cs : list (string * node)) : list path :=
                match cs with
                | [] => []
                | (nm, c) :: cs' => directories c (rel ++ [nm]) ++ subdirs cs'
                end) children
  end.

(** ** Schedules of [asyncio.gather] *)

(** [gather] runs the tasks of one level concurrently: the steps of each
    task keep their order, the tasks interleave freely. *)
Inductive interleave {A : Type} : list (list A) → list A → Prop :=
  | interleave_done (ls : list (list A)) :
      Forall (fun l => l = []) ls → interleave ls []
  | interleave_pick (l1 : list (list A)) (x : A) (l : list A)
      (l2 : list (list A)) (t : list A) :
      interleave (l1 ++ l :: l2) t →
      interleave (l1 ++ (x :: l) :: l2) (x :: t).

(** The file tasks of one level, one trace each, in the order of [tasks]. *)
Definition file_traces (children : list (string * node))
    (input_path output_path : path) : list (list step) :=
  map (fun c => [StepFile (PyPath.join input_path c.1) c.2 output_path
                   input_path])
      (glob_png children).

(** The traces of a [process_directory] call: the directory and the pool
    are created before [gather] starts any task of the level; the tasks are
    the file tasks followed by one call per sub-directory. *)
Inductive schedule : node → path → path → list step → Prop :=
  | schedule_dir (children : list (string * node)) (input_path output_path : path)
      (tss : list (list step)) (t : list step) :
      subdir_traces children input_path output_path tss →
      interleave (file_traces children input_path output_path ++ tss) t →
      schedule (Directory children) input_path output_path
        (StepMkdir output_path :: StepSemaphore input_path :: t)
with subdir_traces : list (string * node) → path → path → list (list step) → Prop :=
  | subdir_traces_nil (input_path output_path : path) :
      subdir_traces [] input_path output_path []
  | subdir_traces_file (nm : string) (content : bytes)
      (rest : list (string * node)) (input_path output_path : path)
      (tss : list (list step)) :
      subdir_traces rest input_path output_path tss →
      subdir_traces ((nm, File content) :: rest) input_path output_path tss
  | subdir_traces_dir (nm : string) (cs rest : list (string * node))
      (input_path output_path : path) (tr : list step) (tss : list (list step)) :
      schedule (Directory cs) (PyPath.join input_path nm)
        (PyPath.join output_path nm) tr →
      subdir_traces rest input_path output_path tss →
      subdir_traces ((nm, Directory cs) :: rest) input_path output_path
        (tr :: tss).

Scheme schedule_mut := Minimality for schedule Sort Prop
  with subdir_traces_mut := Minimality for subdir_traces Sort Prop.

(** A step that works below the output directory [out]. *)
Definition step_under (out : path) (s : step) : Prop :=
  match s with
  | StepMkdir o => out `prefix_of` o
  | StepFile _ _ o _ => out `prefix_of` o
  | _ => True
  end.

(** A step that processes something inside the output directory [out]: a
    file of it or of a directory below it, or the creation of a directory
    below it. *)
Definition inside (out : path) (s : step) : Prop :=
  match s with
  | StepMkdir o => out `prefix_of` o ∧ out ≠ o
  | StepFile _ _ o _ => out `prefix_of` o
  | _ => False
  end.

(** The sub-directories of a level, with everything below them. *)
Definition subdirectories (children : list (string * node)) (rel : path)
    : list path :=
  (fix subdirs (cs : list (string * node)) : list path :=
     match cs with
     | [] => []
     | (nm, c) :: cs' => directories c (rel ++ [nm]) ++ subdirs cs'
     end) children.

(** ** ConcurrencyLimiter: the permit pools at work *)

Module Pool.

(** A conversion waiting for, or holding, a permit of its pool. *)
Abbreviation job := (semaphore * path)%type.

Record state := State {
  permits : gmap semaphore nat;   (* the value of each asyncio.Semaphore *)
  waiting : list job;             (* before [async with semaphore] *)
  running : list job;             (* inside the [async with] block *)
}.

Definition semaphores (ss : list step) : list semaphore :=
  omap (fun s => match s with StepSemaphore sem => Some sem | _ => None end) ss.

Definition jobs (ss : list step) : list job :=
  omap (fun s => match s with
                 | StepFile png_file _ _ sem => Some (sem, png_file)
                 | _ => None
                 end) ss.

(** Every pool is created with [MAX_CONCURRENT_OPERATIONS] permits. *)
Definition init (ss : list step) : state :=
  State (list_to_map (map (fun sem => (sem, MAX_CONCURRENT_OPERATIONS))
                          (semaphores ss)))
        (jobs ss) [].

Inductive transition : state → state → Prop :=
  | acquire (st : state) (l1 l2 : list job) (sem : semaphore) (f : path) (n : nat) :
      waiting st = l1 ++ (sem, f) :: l2 →
      permits st !! sem = Some (S n) →
      transition st (State (<[sem := n]> (permits st)) (l1 ++ l2)
                           ((sem, f) :: running st))
  | release (st : state) (l1 l2 : list job) (sem : semaphore) (f : path) (n : nat) :
      running st = l1 ++ (sem, f) :: l2 →
      permits st !! sem = Some n →
      transition st (State (<[sem := S n]> (permits st)) (waiting st) (l1 ++ l2)).

Definition reachable (ss : list step) (st : state) : Prop :=
  rtc transition (init ss) st.

(** The conversions in flight that drew their permit from [sem]. *)
Definition in_flight (sem : semaphore) (st : state) : nat :=
  length (List.filter (fun j => bool_decide (j.1 = sem)) (running st)).

(** Let the first waiting job take a permit, if its pool has one. *)
Definition start_first (st : state) : option state :=
  match waiting st with
  | [] => None
  | (sem, f) :: rest =>
      match permits st !! sem with
      | Some (S n) =>
          Some (State (<[sem := n]> (permits st)) rest ((sem, f) :: running st))
      | _ => None
      end
  end.

Fixpoint start_all (fuel : nat) (st : state) : state :=
  match fuel with
  | 0 => st
  | S fuel' =>
      match start_first st with
      | Some st' => start_all fuel' st'
      | None => st
      end
  end.

(** Between transitions, the permits left in a pool and the conversions
    that hold one add up to its capacity. *)
Definition invariant (st : state) : Prop :=
  ∀ sem, match permits st !! sem with
         | Some n => n + in_flight sem st = MAX_CONCURRENT_OPERATIONS
         | None => in_flight sem st = 0
         end.

End Pool.

(** ** Crashes during a save *)

(** The states of the file system a crash can leave behind: the one after
    each prefix of the steps. *)
Definition crash_states (ops : list fs_op) (fs : gmap path lock_state)
    : list (gmap path lock_state) :=
  map (fun n => apply_ops (take n ops) fs) (seq 0 (S (length ops))).

(** Atomic replacement of [p] by the document [d]: whenever the steps stop,
    [p] is as it was or holds the whole of [d]. *)
Definition atomic_replace (ops : list fs_op) (fs : gmap path lock_state)
    (p : path) (d : document) : Prop :=
  ∀ fs', fs' ∈ crash_states ops fs →
         fs' !! p = fs !! p ∨ fs' !! p = Some (Holds d).

(** The steps of a save that goes through a temporary file. *)
Definition temp_then_rename (ops : list fs_op) (p : path) (d : document) : Prop :=
  ∃ tmp, tmp ≠ p ∧ ops = [OpenW tmp; Dump tmp d; Rename tmp p].

Definition touches (op : fs_op) : list path :=
  match op with
  | OpenW p => [p]
  | Dump p _ => [p]
  | Rename src dst => [src; dst]
  end.

(** ** What a run may change *)

(** [w'] is [w] after some steps of a walk: directories and files are only
    added, no file appears where a directory is, the log only grows, the
    JSON files and the locks are untouched. *)
Definition extends (w w' : world) : Prop :=
  w_dirs w ⊆ w_dirs w'
  ∧ dom (w_files w) ⊆ dom (w_files w')
  ∧ w_lock w' = w_lock w
  ∧ w_locks w' = w_locks w
  ∧ w_log w `prefix_of` w_log w'
  ∧ ∀ q, q ∈ w_dirs w → w_files w !! q = None → w_files w' !! q = None.

(** [w'] is [w] with more log records, and nothing else changed. *)
Definition same_but_log (w w' : world) (records : list log_record) : Prop :=
  w_dirs w' = w_dirs w ∧ w_files w' = w_files w ∧ w_lock w' = w_lock w
  ∧ w_locks w' = w_locks w ∧ w_clock w' = w_clock w
  ∧ w_log w' = w_log w ++ records.

(** The entry [e] belongs to the file task [(png_file, n, output_path)]: it
    carries the hash of the file as it is now, its artifact exists in [w],
    and it was either taken from the old cache or made by a conversion that
    succeeded. *)
Definition fits (E : env) (conversion_hashes : hashes) (base : path)
    (e : entry) (png_file : path) (n : node) (output_path : path)
    (w : world) : Prop :=
  ∃ content,
    n = File content
    ∧ is_Some (PyPath.relative_to png_file base)
    ∧ e !! "input_hash" = Some (sha256_hexdigest E content)
    ∧ path_exists w (webp_file_of png_file output_path) = true
    ∧ (conversion_hashes !! key_of base png_file = Some e
       ∨ ∃ webp, pil_encode E WEBP_SETTINGS png_file content = Encoded webp).

Definition is_converting (r : log_record) : bool :=
  match r with InfoConverting _ _ => true | _ => false end.




(** A step that has nothing left to do in [w]: the directory is there, the
    file has a cached entry that fits it. *)
Definition step_idle (E : env) (conversion_hashes : hashes) (base : path)
    (w : world) (s : step) : Prop :=
  match s with
  | StepMkdir output_path =>
      ∀ q, q ∈ with_parents output_path → q ∈ w_dirs w ∧ w_files w !! q = None
  | StepSemaphore _ => True
  | StepFile png_file n output_path sem =>
      ∃ e, conversion_hashes !! key_of base png_file = Some e
           ∧ fits E conversion_hashes base e png_file n output_path w
  | StepNotDir _ => False
  end.

(** The cache a lock file holds, as [load_lock_file] reads it. *)
Definition persisted (w : world) (lock_file : path) : hashes :=
  match w_lock w !! lock_file with
  | Some (Holds d) =>
      match flatten_document d with
      | Ok flat => flat
      | _ => ∅
      end
  | _ => ∅
  end.

(** The plans of the sub-directories of a level, in dispatch order. *)
Definition subplans (children : list (string * node))
    (input_path output_path : path) : list step :=
  (fix subplans (cs : list (string * node)) : list step :=
     match cs with
     | [] => []
     | (nm, c) :: cs' =>
         match c with
         | Directory _ =>
             plan c (PyPath.join input_path nm) (PyPath.join output_path nm)
         | File _ => []
         end ++ subplans cs'
     end) children.

(** The entries a computation adds, on top of the dictionary it was given. *)
Definition on_top (nh : hashes) (r : result (hashes * world))
    : result (hashes * world) :=
  '(d, w') ← r; Ok (d ∪ nh, w').

(** ** Well-formed input trees *)

Definition slash_free (nm : string) : Prop :=
  "/"%char ∉ list_ascii_of_string nm.

(** A tree as a file system presents it: the names of a directory are
    distinct and contain no separator. *)
#[warnings="-register-all"]
Inductive wf_tree : node → Prop :=
  | wf_file (content : bytes) : wf_tree (File content)
  | wf_directory (children : list (string * node)) :
      NoDup children.*1 →
      Forall (fun c => slash_free c.1) children →
      Forall (fun c => wf_tree c.2) children →
      wf_tree (Directory children).

(** The paths of the file tasks of a walk, relative to its root. *)
Fixpoint task_rels (n : node) : list path :=
  match n with
  | File _ => []
  | Directory children =>
      map (fun c => [c.1]) (glob_png children)
      ++ (fix below (cs : list (string * node)) : list path :=
            match cs with
            | [] => []
            | (nm, c) :: cs' =>
                match c with
                | Directory _ => map (cons nm) (task_rels c)
                | File _ => []
                end ++ below cs'
            end) children
  end.

Definition rels_below (children : list (string * node)) : list path :=
  (fix below (cs : list (string * node)) : list path :=
     match cs with
     | [] => []
     | (nm, c) :: cs' =>
         match c with
         | Directory _ => map (cons nm) (task_rels c)
         | File _ => []
         end ++ below cs'
     end) children.

(** ** Measures of a document and of a log *)

(** The number of entries the folders of a document hold. *)
Definition folder_total (files : list (string * hashes)) : nat :=
  list_sum (map (fun fm => size fm.2) files).

Definition is_skipping (r : log_record) : bool :=
  match r with InfoSkipping _ _ => true | _ => false end.

Definition is_file_task (s : step) : bool :=
  match s with StepFile _ _ _ _ => true | _ => false end.

(** ** Sample runs *)

(** An environment whose encoder rejects the files called [bad.png]. *)
Definition sample_env : env :=
  Env (fun content => "sha256-of-" +:+ pretty (length content) +:+ "-bytes")
      (fun _ input_path content =>
         if bool_decide (PyPath.name input_path = "bad.png")
         then CodecError "cannot identify image file"
         else Encoded content)
      (fun n => "2024-01-01T00:00:0" +:+ pretty n).

Definition sample_world : world := World ∅ ∅ ∅ [] 0 [].

(** [in/a.png] *)
Definition sample_tree : node := Directory [("a.png", File [])].

(** [in/bad.png], [in/ok.png] and the empty directory [in/empty/] *)
Definition sample_tree_bad : node :=
  Directory [("bad.png", File []); ("ok.png", File []);
             ("empty", Directory [])].

(** Three matching files in [in/] and three in [in/sub/]. *)
Definition sample_tree_wide : node :=
  Directory [("a1.png", File []); ("a2.png", File []); ("a3.png", File []);
             ("sub", Directory [("b1.png", File []); ("b2.png", File []);
                                ("b3.png", File [])])].

(** The world after a first run over [sample_tree]. *)
Definition sample_after_first : world :=
  match async_main sample_env sample_tree ["in"] ["out"] sample_world with
  | Ok w => w
  | _ => sample_world
  end.

(** A walk over [sample_tree_bad] with an empty cache. *)
Definition sample_walk : result (hashes * world) :=
  process_directory sample_env sample_tree_bad ["in"] ["out"] ∅ None
    sample_world.

Definition sample_walk_hashes : hashes :=
  match sample_walk with Ok (nh, _) => nh | _ => ∅ end.

Definition sample_walk_world : world :=
  match sample_walk with Ok (_, w) => w | _ => sample_world end.

(** A lock file holding an earlier document, in an otherwise empty world. *)
Definition sample_lock_file : path := ["out"; "conversion.lock"].

Definition sample_fs : gmap path lock_state :=
  {[ sample_lock_file := Holds (DocNested None []) ]}.

Definition sample_doc : document :=
  DocNested (Some (Metadata "2024-01-01T00:00:00" 0 "1.0")) [].

(** One file task in a world whose output directory exists. *)
Definition sample_ready : world := World {[ ["out"] ]} ∅ ∅ [] 0 [].

Definition sample_task : result (hashes * world) :=
  process_file sample_env ["in"; "a.png"] (File []) ["out"] ∅ ["in"] ["in"] ∅
    sample_ready.

Definition sample_task_hashes : hashes :=
  match sample_task with Ok (nh, _) => nh | _ => ∅ end.

Definition sample_task_world : world :=
  match sample_task with Ok (_, w) => w | _ => sample_ready end.

(** The directory [in/x.png/]. *)
Definition sample_tree_png_dir : node := Directory [("x.png", Directory [])].

(** A cache whose entry for [a.png] has no field. *)
Definition sample_cache_no_hash : hashes := {[ "a.png" := ∅ ]}.

(** A world whose lock file was opened for writing and never written. *)
Definition sample_world_truncated : world :=
  World ∅ ∅ {[ sample_lock_file := Truncated ]} [] 0 [].


(** The [InfoConverting] records a run added to the log of [w]. *)
Definition conversions_since (w w' : world) : nat :=
  length (List.filter is_converting (drop (length (w_log w)) (w_log w'))).

(** * The path functions on examples *)

Example str_of_nested_path : PyPath.str ["a"; "b"; "c.png"] = "a/b/c.png".
Proof. reflexivity. Qed.

Example str_of_top_level_parent : PyPath.str (PyPath.parent ["c.png"]) = ".".
Proof. reflexivity. Qed.

Example stem_drops_last_suffix : PyPath.stem_of "a.b.png" = "a.b".
Proof. reflexivity. Qed.

Example stem_of_hidden_name : PyPath.stem_of ".png" = ".png".
Proof. reflexivity. Qed.

Example glob_is_case_sensitive :
  PyPath.matches_png "x.png" = true ∧ PyPath.matches_png "x.PNG" = false
  ∧ PyPath.matches_png "png" = false.
Proof. by split_and!. Qed.

Example relative_to_strips_base :
  PyPath.relative_to ["in"; "a"; "c.png"] ["in"] = Some ["a"; "c.png"]
  ∧ PyPath.relative_to ["in"; "a"; "c.png"] ["out"] = None.
Proof. by split_and!. Qed.

Example webp_next_to_mirror :
  webp_file_of ["in"; "a"; "c.png"] ["out"; "a"] = ["out"; "a"; "c.webp"].
Proof. reflexivity. Qed.

(** * CacheStore: properties of [load_lock_file] and [save_lock_file] *)

Section cache_store.

Implicit Types (files : list (string * hashes)) (k : string) (e : entry).

Lemma flatten_snoc files fm : flatten (files ++ [fm]) = fm.2 ∪ flatten files.
Proof. unfold flatten. by rewrite fold_left_app. Qed.

(** A key of the flattened cache carries the entry of the last folder
    that lists it. *)
Lemma flatten_lookup_Some files k e :
  flatten files !! k = Some e ↔
  ∃ i fm, files !! i = Some fm ∧ fm.2 !! k = Some e ∧
          ∀ j fm', i < j → files !! j = Some fm' → fm'.2 !! k = None.
Proof.
  induction files as [|fm files IH] using rev_ind.
  - unfold flatten; simpl. rewrite lookup_empty. split; [done|].
    intros (i & fm & Hi & _). by rewrite lookup_nil in Hi.
  - rewrite flatten_snoc, lookup_union_Some_raw, IH. split.
    + intros [Hk | (Hk & i & fm' & Hi & He & Hlast)].
      * exists (length files), fm. split_and!; [by rewrite list_lookup_middle|done|].
        intros j fm' Hlt Hj. apply lookup_lt_Some in Hj.
        rewrite length_app in Hj; simpl in Hj; lia.
      * exists i, fm'. split_and!; [by apply lookup_app_l_Some|done|].
        intros j fm'' Hlt Hj.
        destruct (decide (j < length files)) as [Hj'|Hj'].
        -- rewrite lookup_app_l in Hj by done. eauto.
        -- assert (j = length files) as ->.
           { apply lookup_lt_Some in Hj. rewrite length_app in Hj; simpl in Hj; lia. }
           rewrite list_lookup_middle in Hj by done. by simplify_eq.
    + intros (i & fm' & Hi & He & Hlast).
      destruct (decide (i < length files)) as [Hlt|Hge].
      * right. split.
        -- apply (Hlast (length files) fm); [done|by rewrite list_lookup_middle].
        -- exists i, fm'. rewrite lookup_app_l in Hi by done. split_and!; [done..|].
           intros j fm'' ? Hj. apply (Hlast j); [done|by apply lookup_app_l_Some].
      * left. assert (i = length files) as ->.
        { apply lookup_lt_Some in Hi. rewrite length_app in Hi; simpl in Hi; lia. }
        rewrite list_lookup_middle in Hi by done. by simplify_eq.
Qed.

Lemma flatten_lookup_None files k :
  flatten files !! k = None ↔ Forall (fun fm => fm.2 !! k = None) files.
Proof.
  induction files as [|fm files IH] using rev_ind.
  - unfold flatten; simpl. rewrite lookup_empty. by split.
  - rewrite flatten_snoc, lookup_union_None, IH, Forall_app, Forall_singleton.
    tauto.
Qed.

Lemma update_all_insert files k e acc :
  Forall (fun fm => fm.2 !! k = None) files →
  fold_left (fun a fm => fm.2 ∪ a) files (<[k := e]> acc)
  = <[k := e]> (fold_left (fun a fm => fm.2 ∪ a) files acc).
Proof.
  intros H. revert acc. induction H as [|fm files Hk _ IH]; intros acc; simpl.
  - done.
  - by rewrite <- insert_union_r, IH.
Qed.

(** Filing a key that no folder lists yet adds exactly that key. *)
Lemma flatten_files_put folder k e files :
  Forall (fun fm => fm.2 !! k = None) files →
  flatten (files_put folder k e files) = <[k := e]> (flatten files).
Proof.
  unfold flatten. generalize (∅ : hashes) as acc.
  intros acc H. revert acc.
  induction H as [|[f m] files Hk Hrest IH]; intros acc; simpl.
  - by rewrite insert_union_singleton_l.
  - destruct (decide (f = folder)) as [->|Hne]; simpl.
    + by rewrite <- insert_union_l, update_all_insert.
    + apply IH.
Qed.

(** Regrouping by folder and flattening again gives the cache back. *)
Lemma flatten_organize (h : hashes) : flatten (organize h) = h.
Proof.
  unfold organize.
  apply (map_fold_weak_ind (fun files (m : hashes) => flatten files = m)).
  - done.
  - intros k e m files Hk Hflat.
    rewrite flatten_files_put, Hflat; [done|].
    apply flatten_lookup_None. by rewrite Hflat.
Qed.

Lemma acquire_fresh (w : world) :
  Lock.acquire (Lock.alloc w).1 (Lock.alloc w).2
  = Ok (set_locks (fun ls => <[length (w_locks w) := true]> ls)
                  (Lock.alloc w).2).
Proof.
  unfold Lock.acquire, Lock.alloc; simpl.
  by rewrite list_lookup_middle.
Qed.

Lemma save_lock_file_eq (E : env) (lock_file : path) (h : hashes) (w : world) :
  save_lock_file E lock_file h w
  = Ok (Lock.release (length (w_locks w))
          (set_lock (apply_ops (save_ops lock_file (organized_hashes E h w)))
             (set_locks (fun ls => <[length (w_locks w) := true]> ls)
                (Lock.alloc (tick w)).2))).
Proof.
  unfold save_lock_file.
  pose proof (acquire_fresh (tick w)) as Ha.
  destruct (Lock.alloc (tick w)) as [l w1] eqn:Halloc; simpl in *.
  unfold Lock.alloc in Halloc; simplify_eq/=.
  by rewrite Ha.
Qed.

Lemma save_lock_file_ok (E : env) (lock_file : path) (h : hashes) (w : world) :
  ∃ w', save_lock_file E lock_file h w = Ok w'
  ∧ w_lock w' = <[lock_file := Holds (organized_hashes E h w)]> (w_lock w)
  ∧ w_files w' = w_files w ∧ w_dirs w' = w_dirs w ∧ w_log w' = w_log w.
Proof.
  rewrite save_lock_file_eq. eexists; split; [done|]; simpl.
  unfold apply_ops; simpl. by rewrite insert_insert_eq.
Qed.

Lemma load_lock_file_holds (lock_file : path) (w : world) (d : document) :
  w_lock w !! lock_file = Some (Holds d) →
  load_lock_file lock_file w
  = flat ← flatten_document d;
    Ok (flat, Lock.release (length (w_locks w))
                (set_locks (fun ls => <[length (w_locks w) := true]> ls)
                   (Lock.alloc w).2)).
Proof.
  intros Hd. unfold load_lock_file. rewrite Hd.
  pose proof (acquire_fresh w) as Ha.
  destruct (Lock.alloc w) as [l w1] eqn:Halloc; simpl in *.
  unfold Lock.alloc in Halloc; simplify_eq/=.
  by rewrite Ha.
Qed.

(** C6: [load_lock_file] returns the empty mapping when the lock file does
    not exist; for a document with a ["files"] key it returns the folders
    flattened into one mapping keyed by relative path, where a key carries the
    entry of the last folder listing it; for a document without a ["files"]
    key it returns the whole document. *)
Theorem load_lock_file_cases (lock_file : path) (w : world) :
  match w_lock w !! lock_file with
  | None => load_lock_file lock_file w = Ok (∅, w)
  | Some Truncated => load_lock_file lock_file w = Raised JSONDecodeError
  | Some (Holds (DocNested meta files)) =>
      (∃ w', load_lock_file lock_file w = Ok (flatten files, w')
             ∧ w_lock w' = w_lock w ∧ w_files w' = w_files w)
      ∧ ∀ k e, flatten files !! k = Some e ↔
          ∃ i fm, files !! i = Some fm ∧ fm.2 !! k = Some e ∧
                  ∀ j fm', i < j → files !! j = Some fm' → fm'.2 !! k = None
  | Some (Holds (DocFlat data)) =>
      match data !! "files" with
      | None => ∃ w', load_lock_file lock_file w = Ok (data, w')
                      ∧ w_lock w' = w_lock w ∧ w_files w' = w_files w
      | Some _ => True
      end
  end.
Proof.
  destruct (w_lock w !! lock_file) as [[|[meta files|data]]|] eqn:Hl.
  - unfold load_lock_file. rewrite Hl.
    pose proof (acquire_fresh w) as Ha.
    destruct (Lock.alloc w) as [l w1]; simpl in *. by rewrite Ha.
  - split; [|apply flatten_lookup_Some].
    rewrite (load_lock_file_holds _ _ _ Hl); simpl. eauto.
  - destruct (data !! "files") eqn:Hf; [done|].
    rewrite (load_lock_file_holds _ _ _ Hl); simpl. rewrite Hf; simpl. eauto.
  - unfold load_lock_file. by rewrite Hl.
Qed.

(** C8: saving a mapping, loading it back and saving again persists a
    document whose entries are those of the mapping; the two documents agree
    on the folders, the entry count and the version, and differ at most in
    the [last_update] time stamp. *)
Theorem save_load_save_roundtrip (E : env) (lock_file : path) (M : hashes)
    (w : world) :
  ∃ w1 w2 w3 meta1 meta3 files,
    save_lock_file E lock_file M w = Ok w1
    ∧ w_lock w1 !! lock_file = Some (Holds (DocNested (Some meta1) files))
    ∧ load_lock_file lock_file w1 = Ok (M, w2)
    ∧ save_lock_file E lock_file M w2 = Ok w3
    ∧ w_lock w3 !! lock_file = Some (Holds (DocNested (Some meta3) files))
    ∧ flatten files = M
    ∧ total_files meta3 = size M ∧ total_files meta1 = size M
    ∧ version meta3 = version meta1.
Proof.
  destruct (save_lock_file_ok E lock_file M w) as (w1 & Hs1 & Hl1 & _).
  assert (w_lock w1 !! lock_file = Some (Holds (organized_hashes E M w))) as Hd1.
  { by rewrite Hl1, lookup_insert_eq. }
  pose proof (load_lock_file_holds _ _ _ Hd1) as Hload; simpl in Hload.
  rewrite flatten_organize in Hload; simpl in Hload.
  match type of Hload with _ = Ok (_, ?w') => set (w2 := w') in * end.
  destruct (save_lock_file_ok E lock_file M w2) as (w3 & Hs3 & Hl3 & _).
  exists w1, w2, w3, (Metadata (isoformat E (w_clock w)) (size M) "1.0"),
    (Metadata (isoformat E (w_clock w2)) (size M) "1.0"), (organize M).
  split_and!; try done.
  - by rewrite Hl3, lookup_insert_eq.
  - apply flatten_organize.
Qed.

(** C3, as the code has it: [save_lock_file] opens the lock file itself for
    writing and dumps the document into it.  It touches no other path and
    renames nothing; a save that completes leaves the whole document, a crash
    between the two steps leaves the truncated file. *)
Theorem save_writes_in_place (E : env) (lock_file : path) (h : hashes)
    (w : world) :
  let d := organized_hashes E h w in
  let ops := save_ops lock_file d in
  (∃ w', save_lock_file E lock_file h w = Ok w'
         ∧ w_lock w' = apply_ops ops (w_lock w))
  ∧ Forall (fun op => touches op = [lock_file]) ops
  ∧ crash_states ops (w_lock w)
    = [w_lock w; <[lock_file := Truncated]> (w_lock w);
       <[lock_file := Holds d]> (<[lock_file := Truncated]> (w_lock w))]
  ∧ apply_ops ops (w_lock w) !! lock_file = Some (Holds d)
  ∧ Forall (fun fs' => ∀ q, q ≠ lock_file → fs' !! q = w_lock w !! q)
           (crash_states ops (w_lock w)).
Proof.
  intros d ops. split_and!.
  - rewrite save_lock_file_eq. eexists. split; [done|]. done.
  - subst ops; unfold save_ops. by repeat constructor.
  - done.
  - subst ops; unfold save_ops, apply_ops; simpl. by rewrite lookup_insert_eq.
  - repeat constructor; intros q Hq; unfold apply_ops; simpl;
      by rewrite ?lookup_insert_ne.
Qed.

(** C5, as the code has it: every call of [load_lock_file] and of
    [save_lock_file] allocates a lock of its own.  The lock did not exist
    before the call, so nobody else can hold it: whatever the state of the
    locks of the other callers, the call enters its critical section. *)
Theorem lock_is_fresh_per_call (E : env) (lock_file : path) (h : hashes)
    (w : world) :
  w_locks w !! (Lock.alloc w).1 = None
  ∧ (∃ w', save_lock_file E lock_file h w = Ok w'
           ∧ w_locks w' = w_locks w ++ [false])
  ∧ match w_lock w !! lock_file with
    | Some (Holds d) =>
        match flatten_document d with
        | Ok flat => ∃ w', load_lock_file lock_file w = Ok (flat, w')
                           ∧ w_locks w' = w_locks w ++ [false]
        | _ => True
        end
    | _ => True
    end.
Proof.
  assert (∀ ls : list bool,
            <[length ls := false]> (<[length ls := true]> (ls ++ [false]))
            = ls ++ [false]) as Hls.
  { intros ls. rewrite list_insert_insert_eq.
    replace (length ls) with (length ls + 0) by lia.
    by rewrite insert_app_r. }
  split_and!.
  - simpl. apply lookup_ge_None. lia.
  - rewrite save_lock_file_eq. eexists. split; [done|]. simpl. apply Hls.
  - destruct (w_lock w !! lock_file) as [[|d]|] eqn:Hl; try done.
    rewrite (load_lock_file_holds _ _ _ Hl).
    destruct (flatten_document d); simpl; try done.
    eexists. split; [done|]. simpl. apply Hls.
Qed.

End cache_store.

(** C3, as stated, fails: the steps of a save are not "temporary file, then
    rename", and a crash after the first of them leaves the lock file
    truncated: neither the earlier document nor the new one. *)
Lemma save_is_not_atomic :
  (¬ temp_then_rename (save_ops sample_lock_file sample_doc)
       sample_lock_file sample_doc)
  ∧ (¬ atomic_replace (save_ops sample_lock_file sample_doc) sample_fs
         sample_lock_file sample_doc)
  ∧ apply_ops (take 1 (save_ops sample_lock_file sample_doc)) sample_fs
      !! sample_lock_file = Some Truncated.
Proof.
  split_and!.
  - intros (tmp & _ & Hops). discriminate Hops.
  - intros Hat.
    destruct (Hat (apply_ops (take 1 (save_ops sample_lock_file sample_doc))
                     sample_fs)) as [H|H].
    + unfold crash_states; simpl. apply list_elem_of_In. right; left. done.
    + unfold apply_ops, sample_fs in H; simpl in H.
      rewrite lookup_insert_eq, lookup_singleton_eq in H. discriminate H.
    + unfold apply_ops, sample_fs in H; simpl in H.
      rewrite lookup_insert_eq in H. discriminate H.
  - unfold apply_ops, sample_fs; simpl. by rewrite lookup_insert_eq.
Qed.

(** * The walker: [process_directory] runs its plan *)

Section walker.

Context (E : env) (conversion_hashes : hashes).

Implicit Types (w : world) (nh d : hashes) (ss : list step) (n : node).

Lemma node_ind' (P : node → Prop) :
  (∀ content, P (File content)) →
  (∀ children, Forall (fun c => P c.2) children → P (Directory children)) →
  ∀ n, P n.
Proof.
  intros Hfile Hdir. fix IH 1. intros [content|children].
  - apply Hfile.
  - apply Hdir. induction children as [|[nm c] children IHc]; constructor.
    + apply IH.
    + apply IHc.
Qed.

Lemma relative_to_app (base rel : path) :
  PyPath.relative_to (base ++ rel) base = Some rel.
Proof.
  induction base as [|b base IH]; simpl; [done|].
  by rewrite decide_True.
Qed.

Lemma convert_and_record_on_top png_file n webp_file relative_path input_hash
    sem nh w :
  Ok (convert_and_record E png_file n webp_file relative_path input_hash sem nh w)
  = on_top nh (Ok (convert_and_record E png_file n webp_file relative_path
                     input_hash sem ∅ w)).
Proof.
  unfold convert_and_record.
  destruct (convert_image _ _ _ _ _ _ _) as [output_hash w2].
  destruct (truthy output_hash); simpl.
  - by rewrite <- insert_union_l, (left_id_L ∅ (∪)).
  - by rewrite (left_id_L ∅ (∪)).
Qed.

Lemma process_file_on_top png_file n output_path base sem nh w :
  process_file E png_file n output_path conversion_hashes base sem nh w
  = on_top nh (process_file E png_file n output_path conversion_hashes base
                 sem ∅ w).
Proof.
  unfold process_file.
  destruct (PyPath.relative_to png_file base) as [relative_path|]; [|done].
  destruct (calculate_file_hash E png_file n) as [input_hash| |]; simpl; [|done..].
  destruct (reusable _ _ _ _ _) as [[e|]| |]; simpl; [| |done..].
  - by rewrite <- insert_union_l, (left_id_L ∅ (∪)).
  - apply convert_and_record_on_top.
Qed.

Lemma run_step_on_top base s nh w :
  run_step E conversion_hashes base s nh w
  = on_top nh (run_step E conversion_hashes base s ∅ w).
Proof.
  destruct s as [o|sem|p n o sem|i]; simpl.
  - destruct (mkdir_parents o w); simpl; [|done..].
    by rewrite (left_id_L ∅ (∪)).
  - by rewrite (left_id_L ∅ (∪)).
  - apply process_file_on_top.
  - done.
Qed.

Lemma run_steps_on_top base ss nh w :
  run_steps E conversion_hashes base ss nh w
  = on_top nh (run_steps E conversion_hashes base ss ∅ w).
Proof.
  revert nh w. induction ss as [|s ss IH]; intros nh w; simpl.
  - by rewrite (left_id_L ∅ (∪)).
  - rewrite run_step_on_top.
    destruct (run_step E conversion_hashes base s ∅ w) as [[d w1]| |];
      simpl; [|done..].
    rewrite IH, (IH d).
    destruct (run_steps E conversion_hashes base ss ∅ w1) as [[d' w2]| |];
      simpl; [|done..].
    by rewrite (assoc_L (∪)).
Qed.

Lemma run_steps_app base ss1 ss2 nh w :
  run_steps E conversion_hashes base (ss1 ++ ss2) nh w
  = '(nh1, w1) ← run_steps E conversion_hashes base ss1 nh w;
    run_steps E conversion_hashes base ss2 nh1 w1.
Proof.
  revert nh w. induction ss1 as [|s ss1 IH]; intros nh w; simpl; [done|].
  destruct (run_step E conversion_hashes base s nh w) as [[nh1 w1]| |];
    simpl; [|done..].
  apply IH.
Qed.

Lemma file_tasks_plan pngs input_path output_path base nh w :
  file_tasks E pngs input_path output_path conversion_hashes base input_path nh w
  = run_steps E conversion_hashes base
      (map (fun c => StepFile (PyPath.join input_path c.1) c.2 output_path
                       input_path) pngs) nh w.
Proof.
  revert nh w. induction pngs as [|[nm n] pngs IH]; intros nh w; simpl; [done|].
  destruct (process_file _ _ _ _ _ _ _ _ _) as [[nh1 w1]| |]; simpl; [|done..].
  apply IH.
Qed.

Lemma plan_directory children input_path output_path :
  plan (Directory children) input_path output_path
  = StepMkdir output_path :: StepSemaphore input_path ::
    map (fun c => StepFile (PyPath.join input_path c.1) c.2 output_path input_path)
        (glob_png children)
    ++ subplans children input_path output_path.
Proof. done. Qed.

Lemma subplans_cons nm c children input_path output_path :
  subplans ((nm, c) :: children) input_path output_path
  = match c with
    | Directory _ =>
        plan c (PyPath.join input_path nm) (PyPath.join output_path nm)
    | File _ => []
    end ++ subplans children input_path output_path.
Proof. done. Qed.

Lemma subdir_tasks_plan base rec children input_path output_path nh w :
  Forall (fun c => ∀ i o w', rec c.2 i o w'
                     = run_steps E conversion_hashes base (plan c.2 i o) ∅ w')
         children →
  ('(rs, w') ← subdir_tasks rec children input_path output_path w;
   Ok (merge_results nh rs, w'))
  = run_steps E conversion_hashes base
      (subplans children input_path output_path) nh w.
Proof.
  intros Hrec. revert nh w.
  induction Hrec as [|[nm c] children Hc _ IH]; intros nh w; [done|].
  rewrite subplans_cons. destruct c as [content|cs]; cbn [subdir_tasks].
  - apply IH.
  - rewrite run_steps_app. cbn [snd] in Hc. rewrite Hc.
    rewrite (run_steps_on_top base (plan (Directory cs) _ _) nh).
    destruct (run_steps E conversion_hashes base (plan (Directory cs) _ _) ∅ w)
      as [[r w1]| |]; cbn [on_top mbind result_bind]; [|done..].
    rewrite <- IH.
    destruct (subdir_tasks rec children input_path output_path w1)
      as [[rs w2]| |]; cbn [mbind result_bind]; done.
Qed.

(** The nested recursion of [process_directory], merging the result of each
    sub-directory into a dictionary of its own, computes what running the
    steps of the plan over one shared dictionary computes. *)
Lemma process_directory_plan n input_path output_path base_input_path w :
  process_directory E n input_path output_path conversion_hashes
    base_input_path w
  = run_steps E conversion_hashes (default input_path base_input_path)
      (plan n input_path output_path) ∅ w.
Proof.
  revert input_path output_path base_input_path w.
  induction n as [content|children IH] using node_ind';
    intros input_path output_path base_input_path w; [done|].
  rewrite plan_directory.
  cbn [process_directory run_steps run_step].
  destruct (mkdir_parents output_path w) as [w1| |]; simpl; [|done..].
  rewrite run_steps_app, file_tasks_plan.
  destruct (run_steps E conversion_hashes _ (map _ (glob_png children)) ∅ w1)
    as [[nh w2]| |]; simpl; [|done..].
  apply (subdir_tasks_plan (default input_path base_input_path)).
  eapply Forall_impl; [exact IH|].
  intros [nm c] Hc i o w'; simpl in *. by rewrite Hc.
Qed.

(** ** One file task *)

Lemma reusable_Some k h webp_file w e :
  reusable conversion_hashes k h webp_file w = Ok (Some e) →
  conversion_hashes !! k = Some e ∧ e !! "input_hash" = Some h
  ∧ path_exists w webp_file = true.
Proof.
  unfold reusable. destruct (conversion_hashes !! k) as [e'|]; [|done].
  destruct (e' !! "input_hash") as [stored|] eqn:Hs; [|done].
  destruct (bool_decide (h = stored) && path_exists w webp_file) eqn:Hc; [|done].
  intros [= ->]. apply andb_true_iff in Hc as [Hh ?].
  apply bool_decide_eq_true in Hh as ->. done.
Qed.

Lemma reusable_None k h webp_file w :
  reusable conversion_hashes k h webp_file w = Ok None →
  conversion_hashes !! k = None
  ∨ ∃ e stored, conversion_hashes !! k = Some e
                ∧ e !! "input_hash" = Some stored
                ∧ (stored ≠ h ∨ path_exists w webp_file = false).
Proof.
  unfold reusable. destruct (conversion_hashes !! k) as [e'|]; [|by left].
  destruct (e' !! "input_hash") as [stored|] eqn:Hs; [|done].
  destruct (bool_decide (h = stored) && path_exists w webp_file) eqn:Hc; [done|].
  intros _. right. exists e', stored. split_and!; [done..|].
  apply andb_false_iff in Hc as [Hh|?]; [left|by right].
  apply bool_decide_eq_false in Hh. congruence.
Qed.

#[local] Instance extends_preorder : PreOrder extends.
Proof.
  split.
  - intros w. by repeat split.
  - intros w1 w2 w3 (Hd1&?&?&?&?&Hk1) (?&?&?&?&?&Hk2).
    split_and!; try congruence; try (by etrans).
    intros q Hq Hn. apply Hk2; [by apply Hd1|by apply Hk1].
Qed.

Lemma extends_logger r w : extends w (logger r w).
Proof. split_and!; simpl; try done. by apply prefix_app_r. Qed.

Lemma extends_tick w : extends w (tick w).
Proof. by split_and!. Qed.

Lemma is_dir_extends w w' q :
  extends w w' → is_dir w q = true → is_dir w' q = true.
Proof.
  intros [Hd _]. unfold is_dir.
  rewrite !orb_true_iff, !bool_decide_eq_true.
  intros [?|?]; [by left|right; by apply Hd].
Qed.

Lemma path_exists_extends w w' q :
  extends w w' → path_exists w q = true → path_exists w' q = true.
Proof.
  intros Hext. unfold path_exists.
  rewrite !orb_true_iff, !bool_decide_eq_true.
  intros [Hf|Hd]; [left|right; by eapply is_dir_extends].
  destruct Hext as (_ & Hfiles & _).
  apply elem_of_dom. apply Hfiles. by apply elem_of_dom.
Qed.

Lemma pil_save_inr settings input_path n output_path w w' :
  pil_save E settings input_path n output_path w = inr w' →
  ∃ content webp,
    n = File content
    ∧ pil_encode E settings input_path content = Encoded webp
    ∧ is_dir w output_path = false
    ∧ w' = set_files (fun fs => <[output_path := webp]> fs) w.
Proof.
  unfold pil_save. destruct n as [content|]; [|done].
  destruct (pil_encode E settings input_path content) as [webp|] eqn:He; [|done].
  destruct (is_dir w (PyPath.parent output_path)); [|done].
  destruct (is_dir w output_path) eqn:Hd; [done|].
  intros [= <-]. by exists content, webp.
Qed.

(** A conversion either writes the artifact and returns its hash, or logs the
    cause and returns nothing, leaving the files as they were. *)
Lemma convert_image_cases input_path n output_path settings sem w oh w' :
  convert_image E input_path n output_path settings sem w = (oh, w') →
  (∃ content webp,
      n = File content
      ∧ pil_encode E settings input_path content = Encoded webp
      ∧ is_dir w output_path = false
      ∧ w' = set_files (fun fs => <[output_path := webp]> fs) w
      ∧ oh = Some (sha256_hexdigest E webp))
  ∨ (oh = None
     ∧ ∃ cause, w' = logger (ErrorConverting input_path cause) w
                ∧ pil_save E settings input_path n output_path w = inl cause).
Proof.
  unfold convert_image.
  destruct (pil_save E settings input_path n output_path w) as [cause|w1] eqn:Hs.
  - intros [= <- <-]. right. split; [done|]. by exists cause.
  - apply pil_save_inr in Hs as (content & webp & -> & He & Hd & ->); simpl.
    rewrite lookup_insert_eq. intros [= <- <-]. left. by exists content, webp.
Qed.

Lemma extends_write w output_path webp :
  is_dir w output_path = false →
  extends w (set_files (fun fs => <[output_path := webp]> fs) w).
Proof.
  intros Hd. split_and!; simpl; try done.
  - rewrite dom_insert. set_solver.
  - intros q Hq Hn. rewrite lookup_insert_ne; [done|].
    intros ->. unfold is_dir in Hd. apply orb_false_iff in Hd as [_ Hd].
    by apply bool_decide_eq_false in Hd.
Qed.

Lemma key_of_relative base png_file relative_path :
  PyPath.relative_to png_file base = Some relative_path →
  key_of base png_file = PyPath.str relative_path.
Proof. unfold key_of. by intros ->. Qed.

(** What one file task does to the dictionary and to the world. *)
Lemma process_file_spec png_file n output_path base sem nh w nh' w' :
  process_file E png_file n output_path conversion_hashes base sem nh w
    = Ok (nh', w') →
  extends w w'
  ∧ w_dirs w' = w_dirs w
  ∧ (nh' = nh
     ∨ ∃ e, nh' = <[key_of base png_file := e]> nh
            ∧ fits E conversion_hashes base e png_file n output_path w').
Proof.
  unfold process_file.
  destruct (PyPath.relative_to png_file base) as [relative_path|] eqn:Hrel;
    [|done].
  unfold fits. rewrite (key_of_relative _ _ _ Hrel), Hrel.
  destruct n as [content|cs]; simpl; [|done].
  destruct (reusable _ _ _ _ _) as [[e|]| |] eqn:Hre; simpl; [| |done..].
  - intros [= <- <-]. apply reusable_Some in Hre as (Hc & Hh & Hex).
    split_and!; [apply extends_logger|done|].
    right. exists e. split; [done|]. exists content. split_and!; eauto.
  - unfold convert_and_record.
    destruct (convert_image _ _ _ _ _ _ _) as [oh w2] eqn:Hconv.
    apply convert_image_cases in Hconv
      as [(c & webp & [= <-] & Henc & Hd & -> & ->)|(-> & cause & -> & _)].
    + destruct (truthy _); intros [= <- <-].
      * split_and!.
        -- etrans; [apply extends_logger|]. etrans; [by apply extends_write|].
           etrans; [apply extends_tick|]. apply extends_logger.
        -- done.
        -- right. eexists. split; [done|]. exists content.
           split_and!; [done|eauto|done| |eauto].
           unfold path_exists; simpl. rewrite lookup_insert_eq. done.
      * split_and!; [|done|by left].
        etrans; [apply extends_logger|]. etrans; [by apply extends_write|].
        apply extends_logger.
    + simpl. intros [= <- <-]. split_and!; [|done|by left].
      etrans; [apply extends_logger|]. etrans; [apply extends_logger|].
      apply extends_logger.
Qed.

Lemma mkdir_parents_Ok output_path w w' :
  mkdir_parents output_path w = Ok w' →
  w' = set_dirs (fun ds => ds ∪ list_to_set (with_parents output_path)) w
  ∧ ∀ q, q ∈ with_parents output_path → w_files w !! q = None.
Proof.
  unfold mkdir_parents.
  destruct (List.find _ _) as [q|] eqn:Hfind.
  - by destruct (decide (q = output_path)).
  - intros [= <-]. split; [done|]. intros q Hq.
    apply list_elem_of_In in Hq.
    pose proof (find_none _ _ Hfind q Hq) as Hn; simpl in Hn.
    apply bool_decide_eq_false in Hn.
    by apply eq_None_not_Some.
Qed.

Lemma run_step_spec base s nh w nh' w' :
  run_step E conversion_hashes base s nh w = Ok (nh', w') →
  extends w w'
  ∧ (∀ o, s = StepMkdir o → ∀ q, q ∈ with_parents o →
          q ∈ w_dirs w' ∧ w_files w' !! q = None)
  ∧ (∀ i, s = StepNotDir i → False)
  ∧ (nh' = nh
     ∨ ∃ png_file n output_path sem e,
         s = StepFile png_file n output_path sem
         ∧ nh' = <[key_of base png_file := e]> nh
         ∧ fits E conversion_hashes base e png_file n output_path w').
Proof.
  destruct s as [o|sem|p n o sem|i]; simpl; [| | |done].
  - destruct (mkdir_parents o w) as [w1| |] eqn:Hmk; simpl; [|done..].
    intros [= <- <-]. apply mkdir_parents_Ok in Hmk as [-> Hfree].
    split_and!; [| |done|by left].
    + split_and!; simpl; try done. set_solver.
    + intros o' [= <-] q Hq; simpl. split; [|by apply Hfree].
      apply elem_of_union_r. by apply elem_of_list_to_set.
  - intros [= <- <-]. split_and!; [done|done|done|by left].
  - intros Hp. apply process_file_spec in Hp as (Hext & _ & Hnh).
    split_and!; [done|done|done|].
    destruct Hnh as [->|(e & -> & He)]; [by left|]. right.
    by exists p, n, o, sem, e.
Qed.

Lemma fits_extends base e png_file n output_path w w' :
  extends w w' →
  fits E conversion_hashes base e png_file n output_path w →
  fits E conversion_hashes base e png_file n output_path w'.
Proof.
  intros Hext (c & ? & ? & ? & Hex & ?). exists c.
  split_and!; try done. by eapply path_exists_extends.
Qed.

(** What a run of steps does: the world only grows, every directory of the
    plan exists afterwards with no file in its place, and every new entry
    fits a file task of its key. *)
Lemma run_steps_spec base ss nh w nh' w' :
  run_steps E conversion_hashes base ss nh w = Ok (nh', w') →
  extends w w'
  ∧ (∀ o q, StepMkdir o ∈ ss → q ∈ with_parents o →
            q ∈ w_dirs w' ∧ w_files w' !! q = None)
  ∧ (∀ i, StepNotDir i ∈ ss → False)
  ∧ (∀ k e, nh' !! k = Some e →
       nh !! k = Some e
       ∨ ∃ png_file n output_path sem,
           StepFile png_file n output_path sem ∈ ss
           ∧ key_of base png_file = k
           ∧ fits E conversion_hashes base e png_file n output_path w').
Proof.
  revert nh w. induction ss as [|s ss IH]; intros nh w; simpl.
  - intros [= <- <-]. split_and!; [done| | |by left].
    + intros o q Ho. by apply elem_of_nil in Ho.
    + intros i Hi. by apply elem_of_nil in Hi.
  - destruct (run_step E conversion_hashes base s nh w) as [[nh1 w1]| |] eqn:Hs;
      simpl; [|done..].
    intros Hrest. apply run_step_spec in Hs as (Hext1 & Hmk1 & Hnd1 & Hnh1).
    apply IH in Hrest as (Hext & Hmk & Hnd & Hnh).
    split_and!.
    + by etrans.
    + intros o q Ho Hq. apply elem_of_cons in Ho as [<-|Ho]; [|eauto].
      destruct (Hmk1 o eq_refl q Hq) as [Hq1 Hn1].
      destruct Hext as (Hd & _ & _ & _ & _ & Hk). split; [by apply Hd|by apply Hk].
    + intros i Hi. apply elem_of_cons in Hi as [<-|Hi]; eauto.
    + intros k e Hk. destruct (Hnh k e Hk) as [Hk1|(p & n & o & sem & Hin & ? & ?)].
      * destruct Hnh1 as [->|(p & n & o & sem & e1 & -> & -> & Hfit)]; [by left|].
        destruct (decide (key_of base p = k)) as [<-|Hne].
        -- rewrite lookup_insert_eq in Hk1. simplify_eq. right.
           exists p, n, o, sem. split_and!; [left|done|by eapply fits_extends].
        -- rewrite lookup_insert_ne in Hk1 by done. by left.
      * right. exists p, n, o, sem. split_and!; [by right|done..].
Qed.

(** ** The decision of [process_file] *)




(** C4, as the code has it: the entry a conversion writes stores
    [str(relative_path.parent)] as its folder, which is ["."] for a file
    directly under the input root; ["root"] is the name the log messages
    show for that folder.  A skipped file keeps the entry of the old cache. *)
Theorem entry_folder_is_parent_str (base relative_path : path) (n : node)
    (output_path : path) (sem : semaphore) (nh : hashes) (w : world) :
  match process_file E (base ++ relative_path) n output_path
          conversion_hashes base sem nh w with
  | Ok (nh', w') =>
      nh' = nh
      ∨ ∃ e, nh' = <[PyPath.str relative_path := e]> nh
             ∧ (conversion_hashes !! PyPath.str relative_path = Some e
                ∨ e !! "folder"
                  = Some (PyPath.str (PyPath.parent relative_path)))
  | _ => True
  end
  ∧ ∀ nm, PyPath.str (PyPath.parent [nm]) = "."
          ∧ folder_display_of [nm] = "root".
Proof.
  split; [|done].
  unfold process_file. rewrite relative_to_app.
  destruct (calculate_file_hash _ _ _) as [input_hash| |]; simpl; [|done..].
  destruct (reusable _ _ _ _ _) as [[e|]| |] eqn:Hre; simpl; [| |done..].
  - apply reusable_Some in Hre as (Hc & _). right. exists e. eauto.
  - unfold convert_and_record.
    destruct (convert_image _ _ _ _ _ _ _) as [oh w2].
    destruct (truthy oh); [|by left].
    right. eexists. split; [done|]. right. done.
Qed.

(** ** Failed conversions *)




Lemma omap_NoDup_inj {A B} (f : A → option B) (l : list A) (x y : A) (k : B) :
  NoDup (omap f l) → x ∈ l → y ∈ l → f x = Some k → f y = Some k → x = y.
Proof.
  induction l as [|a l IH]; intros Hnd Hx Hy Hfx Hfy; [by apply elem_of_nil in Hx|].
  simpl in Hnd.
  assert (∀ z, z ∈ l → f z = Some k → f a = Some k → False) as Hclash.
  { intros z Hz Hfz Hfa. rewrite Hfa in Hnd. apply NoDup_cons in Hnd as [Hk _].
    apply Hk. apply list_elem_of_omap. eauto. }
  assert (NoDup (omap f l)) as Hnd'.
  { destruct (f a); [by apply NoDup_cons in Hnd as [_ ?]|done]. }
  apply elem_of_cons in Hx as [->|Hx]; apply elem_of_cons in Hy as [->|Hy].
  - done.
  - by destruct (Hclash y Hy Hfy Hfx).
  - by destruct (Hclash x Hx Hfx Hfy).
  - by apply IH.
Qed.

(** With keys unique within the run, an entry of the result was made by the
    one file task of its key. *)
Lemma run_steps_entry_of_task base ss nh' w w' png_file n output_path sem e :
  NoDup (task_keys base ss) →
  run_steps E conversion_hashes base ss ∅ w = Ok (nh', w') →
  StepFile png_file n output_path sem ∈ ss →
  nh' !! key_of base png_file = Some e →
  fits E conversion_hashes base e png_file n output_path w'.
Proof.
  intros Hnd Hrun Hin Hk.
  apply run_steps_spec in Hrun as (_ & _ & _ & Hnh).
  destruct (Hnh _ _ Hk) as [He|(p' & n' & o' & sem' & Hin' & Hkey & Hfit)].
  { by rewrite lookup_empty in He. }
  assert (StepFile p' n' o' sem' = StepFile png_file n output_path sem) as Heq.
  { eapply (omap_NoDup_inj _ _ _ _ (key_of base png_file) Hnd Hin' Hin);
      simpl; congruence. }
  by simplify_eq.
Qed.

(** The file tasks of a plan lie under the input root, and write next to
    the directory that mirrors theirs. *)
Lemma plan_file_shape n input_path output_path png_file n' o sem :
  StepFile png_file n' o sem ∈ plan n input_path output_path →
  ∃ rel nm, png_file = input_path ++ rel ++ [nm]
            ∧ o = output_path ++ rel ∧ sem = input_path ++ rel.
Proof.
  revert input_path output_path.
  induction n as [content|children IH] using node_ind';
    intros input_path output_path Hin.
  { simpl in Hin. apply list_elem_of_singleton in Hin. done. }
  rewrite plan_directory in Hin.
  apply elem_of_cons in Hin as [?|Hin]; [done|].
  apply elem_of_cons in Hin as [?|Hin]; [done|].
  apply elem_of_app in Hin as [Hin|Hin].
  - apply list_elem_of_fmap in Hin as ([nm c] & [= -> -> -> ->] & _).
    exists [], nm. by rewrite !app_nil_r.
  - induction IH as [|[nm c] children Hc _ IHc]; [by apply elem_of_nil in Hin|].
    rewrite subplans_cons in Hin. apply elem_of_app in Hin as [Hin|Hin]; [|auto].
    destruct c as [content|cs]; [by apply elem_of_nil in Hin|].
    apply Hc in Hin as (rel & nm' & -> & -> & ->).
    exists (nm :: rel), nm'. unfold PyPath.join.
    by rewrite <- !app_assoc.
Qed.


(** ** A run with nothing to do *)

Lemma same_but_log_trans w1 w2 w3 r1 r2 :
  same_but_log w1 w2 r1 → same_but_log w2 w3 r2 →
  same_but_log w1 w3 (r1 ++ r2).
Proof.
  intros (?&?&?&?&?&Hl1) (?&?&?&?&?&Hl2).
  split_and!; try congruence. by rewrite Hl2, Hl1, app_assoc.
Qed.

Lemma is_dir_same w w' q :
  w_dirs w' = w_dirs w → is_dir w' q = is_dir w q.
Proof. unfold is_dir. by intros ->. Qed.

Lemma path_exists_same w w' q :
  w_dirs w' = w_dirs w → w_files w' = w_files w →
  path_exists w' q = path_exists w q.
Proof. unfold path_exists, is_dir. by intros -> ->. Qed.

Lemma step_idle_same base w w' s :
  w_dirs w' = w_dirs w → w_files w' = w_files w →
  step_idle E conversion_hashes base w s →
  step_idle E conversion_hashes base w' s.
Proof.
  intros Hd Hf. destruct s as [o|sem|p n o sem|i]; simpl; [|done| |done].
  - by rewrite Hd, Hf.
  - intros (e & He & c & ? & ? & ? & Hex & ?). exists e. split; [done|].
    exists c. split_and!; try done. by rewrite (path_exists_same w w').
Qed.

Lemma find_is_None {A} (f : A → bool) (l : list A) :
  (∀ x, x ∈ l → f x = false) → List.find f l = None.
Proof.
  intros Hall. destruct (List.find f l) as [x|] eqn:Hfind; [|done].
  apply find_some in Hfind as [Hin Hfx].
  apply list_elem_of_In in Hin. rewrite (Hall x Hin) in Hfx. done.
Qed.

Lemma mkdir_parents_idle output_path w :
  (∀ q, q ∈ with_parents output_path → q ∈ w_dirs w ∧ w_files w !! q = None) →
  ∃ w', mkdir_parents output_path w = Ok w' ∧ same_but_log w w' [].
Proof.
  intros Hall. unfold mkdir_parents. rewrite find_is_None.
  - eexists. split; [done|]. split_and!; simpl; try done; [|by rewrite app_nil_r].
    apply set_eq. intros q. rewrite elem_of_union, elem_of_list_to_set.
    naive_solver.
  - intros q Hq. apply bool_decide_eq_false. destruct (Hall q Hq) as [_ ->].
    by intros [? ?].
Qed.

Lemma run_step_idle base s nh w :
  step_idle E conversion_hashes base w s →
  ∃ nh1 w1 records,
    run_step E conversion_hashes base s nh w = Ok (nh1, w1)
    ∧ same_but_log w w1 records
    ∧ Forall (fun r => is_converting r = false) records
    ∧ ∀ k, nh1 !! k = if decide (k ∈ task_keys base [s])
                      then conversion_hashes !! k else nh !! k.
Proof.
  destruct s as [o|sem|p n o sem|i]; simpl; [| | |done].
  - intros Hall. destruct (mkdir_parents_idle o w Hall) as (w' & -> & Hsame).
    exists nh, w', []. by split_and!.
  - intros _. exists nh, w, []. split_and!; try done.
    split_and!; try done. by rewrite app_nil_r.
  - intros (e & He & c & -> & [rel Hrel] & Hh & Hex & _).
    unfold process_file. rewrite Hrel; simpl.
    rewrite (key_of_relative _ _ _ Hrel) in He.
    unfold reusable. rewrite He, Hh, Hex.
    unfold _calculate_file_hash. rewrite bool_decide_eq_true_2 by done. simpl.
    eexists _, _, [InfoSkipping (folder_display_of rel) (PyPath.name p)].
    split_and!; [done| |by repeat constructor|].
    + by split_and!.
    + intros k. unfold task_keys; simpl.
      rewrite (key_of_relative _ _ _ Hrel).
      destruct (decide (k = PyPath.str rel)) as [->|Hne].
      * rewrite lookup_insert_eq, decide_True; [done|]. apply elem_of_cons; by left.
      * rewrite lookup_insert_ne by done. rewrite decide_False; [done|].
        intros Hk. apply list_elem_of_singleton in Hk. done.
Qed.

(** When every step is idle, the run converts nothing: it leaves the files
    and directories alone, and its result maps the key of every file task to
    the cached entry. *)
Lemma run_steps_idle base ss nh w :
  Forall (step_idle E conversion_hashes base w) ss →
  ∃ nh' w' records,
    run_steps E conversion_hashes base ss nh w = Ok (nh', w')
    ∧ same_but_log w w' records
    ∧ Forall (fun r => is_converting r = false) records
    ∧ ∀ k, nh' !! k = if decide (k ∈ task_keys base ss)
                      then conversion_hashes !! k else nh !! k.
Proof.
  revert nh w. induction ss as [|s ss IH]; intros nh w Hidle; cbn [run_steps].
  - exists nh, w, []. split_and!; try done.
    split_and!; try done. by rewrite app_nil_r.
  - apply Forall_cons in Hidle as [Hs Hss].
    destruct (run_step_idle base s nh w Hs) as (nh1 & w1 & r1 & -> & Hsame1 & Hr1 & Hnh1).
    cbn [mbind result_bind].
    destruct (IH nh1 w1) as (nh' & w' & r2 & -> & Hsame2 & Hr2 & Hnh').
    { eapply Forall_impl; [exact Hss|]. intros s' Hs'.
      destruct Hsame1 as (? & ? & _). by apply (step_idle_same base w w1). }
    exists nh', w', (r1 ++ r2). split_and!; [done| |by apply Forall_app|].
    + by eapply same_but_log_trans.
    + intros k. rewrite Hnh', Hnh1.
      assert (k ∈ task_keys base (s :: ss)
              ↔ k ∈ task_keys base [s] ∨ k ∈ task_keys base ss) as Hk.
      { unfold task_keys. destruct s; simpl;
          rewrite ?elem_of_cons, ?elem_of_nil; tauto. }
      repeat case_decide; try done; tauto.
Qed.

End walker.

(** * Two runs in a row *)

Lemma async_main_Ok (E : env) (tree : node) (input_path output_path : path)
    (w w' : world) :
  async_main E tree input_path output_path w = Ok w' →
  ∃ wa conversion_hashes wb new_hashes wc wd,
    mkdir_parents output_path w = Ok wa
    ∧ load_lock_file (lock_file_of output_path) wa = Ok (conversion_hashes, wb)
    ∧ process_directory E tree input_path output_path conversion_hashes None wb
      = Ok (new_hashes, wc)
    ∧ save_lock_file E (lock_file_of output_path) new_hashes wc = Ok wd
    ∧ w' = logger InfoCompleted wd.
Proof.
  unfold async_main.
  destruct (mkdir_parents output_path w) as [wa| |] eqn:Hm; simpl; [|done..].
  destruct (load_lock_file _ wa) as [[conversion_hashes wb]| |] eqn:Hl;
    simpl; [|done..].
  destruct (process_directory _ _ _ _ _ _ wb) as [[new_hashes wc]| |] eqn:Hp;
    simpl; [|done..].
  destruct (save_lock_file _ _ _ wc) as [wd| |] eqn:Hs; simpl; [|done..].
  intros [= <-]. by exists wa, conversion_hashes, wb, new_hashes, wc, wd.
Qed.

(** Loading touches nothing but the locks. *)
Lemma load_lock_file_world (lock_file : path) (w w' : world) (h : hashes) :
  load_lock_file lock_file w = Ok (h, w') →
  w_dirs w' = w_dirs w ∧ w_files w' = w_files w ∧ w_lock w' = w_lock w
  ∧ w_log w' = w_log w ∧ w_clock w' = w_clock w.
Proof.
  destruct (w_lock w !! lock_file) as [[|d]|] eqn:Hl.
  - unfold load_lock_file. rewrite Hl.
    pose proof (acquire_fresh w) as Ha.
    destruct (Lock.alloc w) as [l w1]; simpl in *. by rewrite Ha.
  - rewrite (load_lock_file_holds _ _ _ Hl).
    destruct (flatten_document d); simpl; [|done..].
    by intros [= <- <-].
  - unfold load_lock_file. rewrite Hl. by intros [= <- <-].
Qed.

Lemma persisted_after_save (E : env) (lock_file : path) (h : hashes)
    (w w' : world) :
  w_lock w' = <[lock_file := Holds (organized_hashes E h w)]> (w_lock w) →
  persisted w' lock_file = h.
Proof.
  intros Hl. unfold persisted. rewrite Hl, lookup_insert_eq; simpl.
  apply flatten_organize.
Qed.

(** C9, as the code has it: when no file of the first run ended in failure
    (every matching file has an entry in the cache the run persisted), a
    second run on the same tree converts nothing: it logs no conversion,
    leaves every artifact as it is, and persists the same entries under the
    same folders with the same count; only [last_update] is taken anew. *)
Theorem second_run_converts_nothing (E1 E2 : env) (tree : node)
    (input_path output_path : path) (w0 w1 : world) :
  sha256_hexdigest E2 = sha256_hexdigest E1 →
  NoDup (task_keys input_path (plan tree input_path output_path)) →
  async_main E1 tree input_path output_path w0 = Ok w1 →
  (∀ k, k ∈ task_keys input_path (plan tree input_path output_path) →
        is_Some (persisted w1 (lock_file_of output_path) !! k)) →
  ∃ w2 records meta1 meta2 files,
    async_main E2 tree input_path output_path w1 = Ok w2
    ∧ w_log w2 = w_log w1 ++ records
    ∧ Forall (fun r => is_converting r = false) records
    ∧ w_files w2 = w_files w1
    ∧ w_dirs w2 = w_dirs w1
    ∧ persisted w2 (lock_file_of output_path)
      = persisted w1 (lock_file_of output_path)
    ∧ w_lock w1 !! lock_file_of output_path
      = Some (Holds (DocNested (Some meta1) files))
    ∧ w_lock w2 !! lock_file_of output_path
      = Some (Holds (DocNested (Some meta2) files))
    ∧ total_files meta2 = total_files meta1
    ∧ version meta2 = version meta1.
Proof.
  intros Hsha Hnd Hrun1 Hall.
  set (lock_file := lock_file_of output_path) in *.
  set (ss := plan tree input_path output_path) in *.
  apply async_main_Ok in Hrun1
    as (wa & cache0 & wb & new1 & wc & wd & _ & _ & Hwalk1 & Hsave1 & ->).
  rewrite process_directory_plan in Hwalk1; simpl in Hwalk1. fold ss in Hwalk1.
  destruct (save_lock_file_ok E1 lock_file new1 wc)
    as (wd' & Hsave1' & Hlock1 & Hfiles1 & Hdirs1 & Hlog1).
  unfold lock_file in Hsave1'. rewrite Hsave1 in Hsave1'.
  injection Hsave1' as <-.
  assert (persisted (logger InfoCompleted wd) lock_file = new1) as Hpers1.
  { by apply (persisted_after_save E1 lock_file new1 wc). }
  rewrite Hpers1 in Hall.
  pose proof (run_steps_spec E1 cache0 _ _ _ _ _ _ Hwalk1)
    as (_ & Hmk1 & Hnd1 & Hprov1).
  (* the tree is a directory, and its plan starts by creating the root *)
  assert (StepMkdir output_path ∈ ss) as Hroot.
  { subst ss. destruct tree as [content|children]; simpl.
    - destruct (Hnd1 input_path). simpl. apply elem_of_cons. by left.
    - apply elem_of_cons. by left. }
  set (w1 := logger InfoCompleted wd) in *.
  assert (w_dirs w1 = w_dirs wc) as Hd1 by done.
  assert (w_files w1 = w_files wc) as Hf1 by done.
  (* second run: the root directory is there *)
  destruct (mkdir_parents_idle output_path w1) as (wa2 & Hmk2 & Hsame_a).
  { intros q Hq. rewrite Hd1, Hf1. by apply (Hmk1 output_path). }
  destruct Hsame_a as (Hda & Hfa & Hla & _ & _ & Hloga).
  (* second run: the cache read back is the one the first run built *)
  assert (w_lock wa2 !! lock_file = Some (Holds (organized_hashes E1 new1 wc)))
    as Hheld.
  { rewrite Hla. change (w_lock w1) with (w_lock wd).
    by rewrite Hlock1, lookup_insert_eq. }
  pose proof (load_lock_file_holds _ _ _ Hheld) as Hload2; simpl in Hload2.
  rewrite flatten_organize in Hload2; simpl in Hload2.
  match type of Hload2 with _ = Ok (_, ?w') => set (wb2 := w') in * end.
  assert (w_dirs wb2 = w_dirs wc) as Hdb by (by subst wb2; simpl; rewrite Hda).
  assert (w_files wb2 = w_files wc) as Hfb by (by subst wb2; simpl; rewrite Hfa).
  assert (w_log wb2 = w_log w1) as Hlogb.
  { subst wb2; simpl. by rewrite Hloga, app_nil_r. }
  clearbody wb2.
  (* second run: every step of the plan is idle *)
  assert (Forall (step_idle E2 new1 input_path wb2) ss) as Hidle.
  { apply Forall_forall. intros [o|sem|p n o sem|i] Hs; simpl.
    - intros q Hq. rewrite Hdb, Hfb. by apply (Hmk1 o).
    - done.
    - assert (key_of input_path p ∈ task_keys input_path ss) as Hkey.
      { apply list_elem_of_omap. by exists (StepFile p n o sem). }
      destruct (Hall _ Hkey) as [e He]. exists e. split; [done|].
      pose proof (run_steps_entry_of_task E1 cache0 _ _ _ _ _ _ _ _ _ _
                    Hnd Hwalk1 Hs He) as (c & -> & Hrel & Hh & Hex & _).
      exists c. split_and!; [done|done|by rewrite Hsha| |by left].
      rewrite <- Hex. by apply path_exists_same.
    - by apply (Hnd1 i). }
  destruct (run_steps_idle E2 new1 input_path ss ∅ wb2 Hidle)
    as (new2 & wc2 & records & Hwalk2 & Hsame2 & Hrec & Hnew2).
  assert (new2 = new1) as ->.
  { apply map_eq. intros k. rewrite Hnew2. case_decide as Hk; [done|].
    rewrite lookup_empty. symmetry.
    destruct (new1 !! k) as [e|] eqn:He; [|done].
    destruct (Hprov1 k e He) as [He'|(p & n & o & sem & Hs & <- & _)].
    - by rewrite lookup_empty in He'.
    - destruct Hk. apply list_elem_of_omap. by exists (StepFile p n o sem). }
  destruct Hsame2 as (Hd2 & Hf2 & Hl2 & _ & _ & Hlog2).
  destruct (save_lock_file_ok E2 lock_file new1 wc2)
    as (wd2 & Hsave2 & Hlock2 & Hfiles2 & Hdirs2 & Hlogd2).
  exists (logger InfoCompleted wd2), (records ++ [InfoCompleted]),
    (Metadata (isoformat E1 (w_clock wc)) (size new1) "1.0"),
    (Metadata (isoformat E2 (w_clock wc2)) (size new1) "1.0"),
    (organize new1).
  split_and!.
  - unfold async_main. fold lock_file. rewrite Hmk2; simpl.
    rewrite Hload2; simpl.
    rewrite process_directory_plan; simpl. fold ss. rewrite Hwalk2; simpl.
    by rewrite Hsave2.
  - simpl. by rewrite Hlogd2, Hlog2, Hlogb, app_assoc.
  - apply Forall_app. split; [done|]. by repeat constructor.
  - simpl. by rewrite Hfiles2, Hf2, Hfb.
  - simpl. by rewrite Hdirs2, Hd2, Hdb.
  - rewrite Hpers1. by apply (persisted_after_save E2 lock_file new1 wc2).
  - change (w_lock w1) with (w_lock wd). by rewrite Hlock1, lookup_insert_eq.
  - simpl. by rewrite Hlock2, lookup_insert_eq.
  - done.
  - done.
Qed.

(** C9, as stated, fails: a file whose conversion failed has no entry, so a
    second run on the unchanged tree converts it again. *)
Lemma failed_file_is_converted_again :
  match async_main sample_env sample_tree_bad ["in"] ["out"] sample_world with
  | Ok w1 =>
      match async_main sample_env sample_tree_bad ["in"] ["out"] w1 with
      | Ok w2 => conversions_since w1 w2 = 1
      | _ => False
      end
  | _ => False
  end.
Proof. vm_compute. reflexivity. Qed.

(** C4, as stated, fails: the entry of a file directly under the input root
    is persisted with the folder ["."], not ["root"]. *)
Lemma top_level_folder_is_dot :
  match async_main sample_env sample_tree ["in"] ["out"] sample_world with
  | Ok w1 =>
      (persisted w1 (lock_file_of ["out"]) !! "a.png") ≫= (.!! "folder")
      = Some "."
  | _ => False
  end
  ∧ "." ≠ "root".
Proof. split; [vm_compute; reflexivity|discriminate]. Qed.

Lemma sample_first_run_ok :
  async_main sample_env sample_tree ["in"] ["out"] sample_world
  = Ok sample_after_first.
Proof. vm_cast_no_check (eq_refl (Ok sample_after_first)). Qed.

Lemma sample_keys :
  task_keys ["in"] (plan sample_tree ["in"] ["out"]) = ["a.png"].
Proof. vm_compute. reflexivity. Qed.

Lemma sample_walk_ok :
  process_directory sample_env sample_tree_bad ["in"] ["out"] ∅ None
    sample_world
  = Ok (sample_walk_hashes, sample_walk_world).
Proof.
  vm_cast_no_check (eq_refl (Ok (sample_walk_hashes, sample_walk_world))).
Qed.

(** C9 on [sample_tree]: the run after a first run without failures. *)
Lemma second_run_converts_nothing_witness :
  ∃ w2 records meta1 meta2 files,
    async_main sample_env sample_tree ["in"] ["out"] sample_after_first = Ok w2
    ∧ w_log w2 = w_log sample_after_first ++ records
    ∧ Forall (fun r => is_converting r = false) records
    ∧ w_files w2 = w_files sample_after_first
    ∧ w_dirs w2 = w_dirs sample_after_first
    ∧ persisted w2 (lock_file_of ["out"])
      = persisted sample_after_first (lock_file_of ["out"])
    ∧ w_lock sample_after_first !! lock_file_of ["out"]
      = Some (Holds (DocNested (Some meta1) files))
    ∧ w_lock w2 !! lock_file_of ["out"]
      = Some (Holds (DocNested (Some meta2) files))
    ∧ total_files meta2 = total_files meta1
    ∧ version meta2 = version meta1.
Proof.
  apply (second_run_converts_nothing sample_env sample_env sample_tree
           ["in"] ["out"] sample_world sample_after_first).
  - reflexivity.
  - apply (bool_decide_unpack _). vm_compute. exact I.
  - exact sample_first_run_ok.
  - intros k Hk. rewrite sample_keys in Hk.
    apply list_elem_of_singleton in Hk as ->.
    apply (bool_decide_unpack _). vm_compute. exact I.
Defined.


(** * Schedules: what comes before what *)

Section schedules.

Context {A : Type}.

Implicit Types (tss : list (list A)) (t l : list A).

Lemma interleave_skip_empty tss t : interleave tss t → interleave ([] :: tss) t.
Proof.
  induction 1 as [ls Hls|l1 x l l2 t _ IH].
  - constructor. by constructor.
  - apply (interleave_pick ([] :: l1)). exact IH.
Qed.

Lemma interleave_whole l tss t : interleave tss t → interleave (l :: tss) (l ++ t).
Proof.
  intros H. induction l as [|x l IH]; simpl.
  - by apply interleave_skip_empty.
  - by apply (interleave_pick []).
Qed.

(** Running the tasks one after the other is one of the schedules. *)
Lemma interleave_concat tss : interleave tss (concat tss).
Proof.
  induction tss as [|l tss IH]; simpl.
  - by constructor.
  - by apply interleave_whole.
Qed.

(** A step of a task is a step of the schedule. *)
Lemma interleave_elem_of tss t l x :
  interleave tss t → l ∈ tss → x ∈ l → x ∈ t.
Proof.
  intros H. revert l. induction H as [ls Hls|l1 x0 l0 l2 t _ IH]; intros l Hl Hx.
  - rewrite Forall_forall in Hls. rewrite (Hls l Hl) in Hx.
    by apply elem_of_nil in Hx.
  - apply elem_of_app in Hl as [Hl|Hl].
    + right. apply (IH l); [|done]. apply elem_of_app. by left.
    + apply elem_of_cons in Hl as [->|Hl].
      * apply elem_of_cons in Hx as [->|Hx]; [by left|].
        right. apply (IH l0); [|done]. apply elem_of_app. right. by left.
      * right. apply (IH l); [|done]. apply elem_of_app. right. by right.
Qed.

(** Every step of a schedule is a step of one task, and what that task did
    before it, the schedule did before it. *)
Lemma interleave_split tss t t1 x t2 :
  interleave tss t → t = t1 ++ x :: t2 →
  ∃ l a b, l ∈ tss ∧ l = a ++ x :: b ∧ ∀ y, y ∈ a → y ∈ t1.
Proof.
  intros H. revert t1.
  induction H as [ls Hls|l1 x0 l0 l2 t _ IH]; intros t1 Heq.
  - by destruct t1.
  - destruct t1 as [|y t1]; simpl in Heq; injection Heq as -> ->.
    + exists (x :: l0), [], l0. split_and!; [|done|].
      * apply elem_of_app. right. by left.
      * intros y Hy. by apply elem_of_nil in Hy.
    + destruct (IH t1 eq_refl) as (l & a & b & Hl & -> & Ha).
      apply elem_of_app in Hl as [Hl|Hl].
      * exists (a ++ x :: b), a, b. split_and!; [|done|].
        -- apply elem_of_app. by left.
        -- intros z Hz. right. by apply Ha.
      * apply elem_of_cons in Hl as [<-|Hl].
        -- exists (y :: a ++ x :: b), (y :: a), b. split_and!; [|done|].
           ++ apply elem_of_app. right. by left.
           ++ intros z Hz. apply elem_of_cons in Hz as [->|Hz]; [by left|].
              right. by apply Ha.
        -- exists (a ++ x :: b), a, b. split_and!; [|done|].
           ++ apply elem_of_app. right. by right.
           ++ intros z Hz. right. by apply Ha.
Qed.

End schedules.

Lemma prefix_of_level (o out : path) (nm : string) :
  o `prefix_of` out → out `prefix_of` o ++ [nm] → out ≠ o ++ [nm] → out = o.
Proof.
  intros [k1 ->] [k2 Hk] Hne.
  rewrite <- app_assoc in Hk. apply app_inv_head in Hk.
  destruct k1 as [|c k1]; [by rewrite app_nil_r|].
  destruct k1; destruct k2; simplify_eq/=.
Qed.

Lemma prefix_comparable (a b c : path) :
  a `prefix_of` c → b `prefix_of` c → a `prefix_of` b ∨ b `prefix_of` a.
Proof.
  intros Ha Hb. by apply (prefix_weak_total a b c).
Qed.

Lemma inside_under (out r : path) (s : step) :
  inside out s → step_under r s →
  ∃ o, out `prefix_of` o ∧ r `prefix_of` o.
Proof. destruct s; simpl; naive_solver. Qed.

(** In every schedule of a call, a directory of the mirrored tree is created
    before anything is processed inside it. *)
Lemma schedule_order (n : node) (input_path output_path : path) (t : list step) :
  schedule n input_path output_path t →
  (∀ s, s ∈ t → step_under output_path s)
  ∧ ∀ t1 s t2 out,
      t = t1 ++ s :: t2 → output_path `prefix_of` out → inside out s →
      StepMkdir out ∈ t1.
Proof.
  revert n input_path output_path t.
  apply (schedule_mut
    (fun n i o t =>
       (∀ s, s ∈ t → step_under o s)
       ∧ ∀ t1 s t2 out,
           t = t1 ++ s :: t2 → o `prefix_of` out → inside out s →
           StepMkdir out ∈ t1)
    (fun cs i o tss =>
       ∀ l, l ∈ tss →
         ∃ nm, (∀ s, s ∈ l → step_under (o ++ [nm]) s)
               ∧ ∀ a s b out,
                   l = a ++ s :: b → o ++ [nm] `prefix_of` out → inside out s →
                   StepMkdir out ∈ a)).
  - intros children i o tss t _ Hsub Hint.
    assert (∀ l, l ∈ file_traces children i o →
                 ∃ p n, l = [StepFile p n o i]) as Hfiles.
    { intros l Hl. apply list_elem_of_fmap in Hl as (c & -> & _). eauto. }
    split.
    + intros s Hs. apply elem_of_cons in Hs as [->|Hs]; [simpl; reflexivity|].
      apply elem_of_cons in Hs as [->|Hs]; [done|].
      apply list_elem_of_split in Hs as (t1 & t2 & ->).
      destruct (interleave_split _ _ _ _ _ Hint eq_refl)
        as (l & a & b & Hl & -> & _).
      apply elem_of_app in Hl as [Hl|Hl].
      * destruct (Hfiles _ Hl) as (p & n & Heq).
        destruct a as [|? [|? ?]]; simplify_eq/=. reflexivity.
      * destruct (Hsub _ Hl) as (nm & Hunder & _).
        assert (step_under (o ++ [nm]) s) as Hs.
        { apply Hunder. apply elem_of_app. right. by left. }
        destruct s; simpl in *; try done; by eapply prefix_app_l.
    + intros t1 s t2 out Heq Hpre Hin.
      destruct t1 as [|s1 t1]; simpl in Heq; injection Heq as <- Heq.
      { simpl in Hin. destruct Hin as [Hin Hne]. destruct Hne.
        by apply (anti_symm prefix). }
      destruct t1 as [|s2 t1]; simpl in Heq; injection Heq as <- Heq.
      { done. }
      destruct (interleave_split _ _ _ _ _ Hint Heq)
        as (l & a & b & Hl & -> & Ha).
      apply elem_of_app in Hl as [Hl|Hl].
      * destruct (Hfiles _ Hl) as (p & n & Hl').
        destruct a as [|? [|? ?]]; simplify_eq/=.
        assert (out = o) as -> by (by apply (anti_symm prefix)).
        by left.
      * destruct (Hsub _ Hl) as (nm & Hunder & Hord).
        assert (step_under (o ++ [nm]) s) as Hs.
        { apply Hunder. apply elem_of_app. right. by left. }
        destruct (inside_under _ _ _ Hin Hs) as (o_s & Hout & Hnm).
        destruct (decide (o ++ [nm] `prefix_of` out)) as [Hbelow|Hnot].
        -- right. right. apply Ha. by apply (Hord a s b out).
        -- assert (out = o) as ->; [|by left].
           destruct (prefix_comparable _ _ _ Hout Hnm) as [Hc|Hc]; [|done].
           apply (prefix_of_level o out nm); [done..|].
           intros ->. by destruct Hnot.
  - intros i o l Hl. by apply elem_of_nil in Hl.
  - intros nm content rest i o tss _ IH. exact IH.
  - intros nm cs rest i o tr tss _ [Hunder Hord] _ IH l Hl.
    apply elem_of_cons in Hl as [->|Hl]; [|by apply IH].
    exists nm. split; [exact Hunder|exact Hord].
Qed.

Lemma directories_directory (children : list (string * node)) (rel : path) :
  directories (Directory children) rel = rel :: subdirectories children rel.
Proof. done. Qed.

Lemma subdirectories_cons (nm : string) (c : node)
    (children : list (string * node)) (rel : path) :
  subdirectories ((nm, c) :: children) rel
  = directories c (rel ++ [nm]) ++ subdirectories children rel.
Proof. done. Qed.

(** Every schedule creates the mirror of every directory of the tree. *)
Lemma schedule_creates_all (n : node) (input_path output_path : path)
    (t : list step) :
  schedule n input_path output_path t →
  ∀ r d, d ∈ directories n r →
         ∃ rel, d = r ++ rel ∧ StepMkdir (output_path ++ rel) ∈ t.
Proof.
  revert n input_path output_path t.
  apply (schedule_mut
    (fun n i o t =>
       ∀ r d, d ∈ directories n r →
              ∃ rel, d = r ++ rel ∧ StepMkdir (o ++ rel) ∈ t)
    (fun cs i o tss =>
       ∀ r d, d ∈ subdirectories cs r →
              ∃ rel l, d = r ++ rel ∧ l ∈ tss ∧ StepMkdir (o ++ rel) ∈ l)).
  - intros children i o tss t _ Hsub Hint r d Hd.
    rewrite directories_directory in Hd.
    apply elem_of_cons in Hd as [->|Hd].
    + exists []. rewrite !app_nil_r. split; [done|by left].
    + destruct (Hsub r d Hd) as (rel & l & -> & Hl & Hin).
      exists rel. split; [done|]. right. right.
      apply (interleave_elem_of _ _ l _ Hint); [|done].
      apply elem_of_app. by right.
  - intros i o r d Hd. by apply elem_of_nil in Hd.
  - intros nm content rest i o tss _ IH r d Hd.
    rewrite subdirectories_cons in Hd. simpl in Hd. by apply IH.
  - intros nm cs rest i o tr tss _ IHtr _ IH r d Hd.
    rewrite subdirectories_cons in Hd. apply elem_of_app in Hd as [Hd|Hd].
    + destruct (IHtr _ _ Hd) as (rel & -> & Hin).
      exists (nm :: rel), tr. split_and!.
      * by rewrite <- app_assoc.
      * by left.
      * unfold PyPath.join in Hin. by rewrite <- app_assoc in Hin.
    + destruct (IH _ _ Hd) as (rel & l & -> & Hl & Hin).
      exists rel, l. split_and!; [done|by right|done].
Qed.

Lemma concat_singletons {A B} (f : A → B) (l : list A) :
  concat (map (fun x => [f x]) l) = map f l.
Proof. induction l as [|x l IH]; simpl; [done|]. by rewrite IH. Qed.

(** The plan, which runs the tasks one after the other in dispatch order, is
    one of the schedules. *)
Lemma plan_schedule_node (n : node) (input_path output_path : path) :
  match n with
  | Directory _ =>
      schedule n input_path output_path (plan n input_path output_path)
  | File _ => True
  end.
Proof.
  revert input_path output_path.
  induction n as [content|cs IH] using node_ind'; intros i o; [done|].
  rewrite plan_directory.
  assert (∃ tss, subdir_traces cs i o tss ∧ concat tss = subplans cs i o)
    as (tss & Htr & Hcat).
  { induction IH as [|[nm c] cs Hc _ IHcs].
    - exists []. split; [constructor|done].
    - destruct IHcs as (tss & Htr & Hcat). rewrite subplans_cons.
      destruct c as [content|cs'].
      + exists tss. split; [by constructor|done].
      + exists (plan (Directory cs') (PyPath.join i nm) (PyPath.join o nm)
                :: tss).
        split; [constructor; [apply Hc|done]|].
        simpl concat. by rewrite Hcat. }
  apply (schedule_dir _ _ _ tss); [done|].
  replace (map _ (glob_png cs) ++ subplans cs i o)
    with (concat (file_traces cs i o ++ tss)); [apply interleave_concat|].
  rewrite concat_app, Hcat. unfold file_traces.
  by rewrite concat_singletons.
Qed.

Lemma schedule_is_directory (n : node) (input_path output_path : path)
    (t : list step) :
  schedule n input_path output_path t → ∃ children, n = Directory children.
Proof. intros H. inversion H. eauto. Qed.

(** C10: in every schedule of the walk, the output directory mirroring a
    directory of the input tree is created, whether or not the directory
    holds a matching file, and it is created before any file in it or any
    directory below it is processed; when the walk returns, the mirror of
    every input directory exists together with its parents. *)
Theorem output_directory_created_first (tree : node)
    (input_path output_path : path) (t : list step) :
  schedule tree input_path output_path t →
  (∀ d, d ∈ directories tree [] → StepMkdir (output_path ++ d) ∈ t)
  ∧ (∀ t1 s t2 out,
       t = t1 ++ s :: t2 → output_path `prefix_of` out → inside out s →
       StepMkdir out ∈ t1)
  ∧ ∀ E conversion_hashes w new_hashes w',
      process_directory E tree input_path output_path conversion_hashes None w
        = Ok (new_hashes, w') →
      ∀ d q, d ∈ directories tree [] → q ∈ with_parents (output_path ++ d) →
             q ∈ w_dirs w'.
Proof.
  intros Hsched. split_and!.
  - intros d Hd.
    destruct (schedule_creates_all _ _ _ _ Hsched [] d Hd) as (rel & -> & Hin).
    done.
  - by apply (schedule_order tree input_path).
  - intros E conversion_hashes w new_hashes w' Hrun d q Hd Hq.
    rewrite process_directory_plan in Hrun.
    apply run_steps_spec in Hrun as (_ & Hmk & _).
    apply (Hmk (output_path ++ d) q); [|done].
    destruct (schedule_is_directory _ _ _ _ Hsched) as [children ->].
    pose proof (plan_schedule_node (Directory children) input_path output_path)
      as Hplan.
    destruct (schedule_creates_all _ _ _ _ Hplan [] d Hd) as (rel & -> & Hin).
    done.
Qed.

(** C10 on [sample_tree_bad], with the tasks run in dispatch order. *)
Lemma output_directory_created_first_witness :
  let tree := sample_tree_bad in
  let t := plan tree ["in"] ["out"] in
  (∀ d, d ∈ directories tree [] → StepMkdir (["out"] ++ d) ∈ t)
  ∧ (∀ t1 s t2 out,
       t = t1 ++ s :: t2 → ["out"] `prefix_of` out → inside out s →
       StepMkdir out ∈ t1)
  ∧ ∀ E conversion_hashes w new_hashes w',
      process_directory E tree ["in"] ["out"] conversion_hashes None w
        = Ok (new_hashes, w') →
      ∀ d q, d ∈ directories tree [] → q ∈ with_parents (["out"] ++ d) →
             q ∈ w_dirs w'.
Proof.
  apply (output_directory_created_first sample_tree_bad ["in"] ["out"]
           (plan sample_tree_bad ["in"] ["out"])).
  apply (plan_schedule_node sample_tree_bad).
Defined.

(** * ConcurrencyLimiter: one pool per directory *)

Section pool.

Import Pool.

Implicit Types (st : state) (sem : semaphore).

Lemma pool_in_flight_cons sem j (js : list job) p w :
  in_flight sem (State p w (j :: js))
  = (if bool_decide (j.1 = sem) then 1 else 0) + in_flight sem (State p w js).
Proof. unfold in_flight; simpl. by destruct (bool_decide (j.1 = sem)). Qed.

Lemma pool_in_flight_app sem (l1 l2 : list job) j p w :
  in_flight sem (State p w (l1 ++ j :: l2))
  = (if bool_decide (j.1 = sem) then 1 else 0)
    + in_flight sem (State p w (l1 ++ l2)).
Proof.
  unfold in_flight; simpl. rewrite !List.filter_app, !length_app; simpl.
  destruct (bool_decide (j.1 = sem)); simpl; lia.
Qed.

Lemma pool_init_invariant (ss : list step) : invariant (init ss).
Proof.
  intros sem. unfold init; simpl.
  destruct (list_to_map _ !! sem) as [n|] eqn:Hn; [|done].
  apply elem_of_list_to_map_2 in Hn.
  apply list_elem_of_fmap in Hn as (sem' & [= -> ->] & _).
  unfold in_flight; simpl. reflexivity.
Qed.

Lemma pool_transition_invariant st st' :
  invariant st → transition st st' → invariant st'.
Proof.
  intros Hinv Htr sem'. destruct Htr as [st l1 l2 sem f n Hw Hp|st l1 l2 sem f n Hr Hp];
    simpl; pose proof (Hinv sem') as Hsem'.
  - rewrite pool_in_flight_cons; simpl.
    destruct (decide (sem = sem')) as [->|Hne].
    + rewrite lookup_insert_eq, bool_decide_eq_true_2 by done.
      rewrite Hp in Hsem'. destruct st; simpl in *. unfold in_flight in *;
        simpl in *. lia.
    + rewrite lookup_insert_ne, bool_decide_eq_false_2 by done.
      destruct st; exact Hsem'.
  - destruct st as [p w r]; simpl in *. subst r.
    rewrite pool_in_flight_app in Hsem'; simpl in Hsem'.
    destruct (decide (sem = sem')) as [->|Hne].
    + rewrite lookup_insert_eq. rewrite Hp, bool_decide_eq_true_2 in Hsem' by done.
      unfold in_flight in *; simpl in *. lia.
    + rewrite lookup_insert_ne by done.
      rewrite bool_decide_eq_false_2 in Hsem' by done. exact Hsem'.
Qed.

(** Each pool does bound the conversions that drew from it. *)
Lemma pool_bound (ss : list step) st sem :
  reachable ss st → (in_flight sem st ≤ MAX_CONCURRENT_OPERATIONS)%nat.
Proof.
  intros Hreach.
  assert (invariant st) as Hinv.
  { revert st Hreach. apply (rtc_ind_r invariant (init ss)).
    - apply pool_init_invariant.
    - intros st st' _ Htr Hinv. by eapply pool_transition_invariant. }
  specialize (Hinv sem). destruct (permits st !! sem); lia.
Qed.

Lemma pool_start_first st st' :
  start_first st = Some st' → transition st st'.
Proof.
  unfold start_first. destruct (waiting st) as [|[sem f] rest] eqn:Hw; [done|].
  destruct (permits st !! sem) as [[|n]|] eqn:Hp; [done| |done].
  intros [= <-]. by apply (acquire st [] rest sem f n).
Qed.

Lemma pool_start_all fuel st : rtc transition st (start_all fuel st).
Proof.
  revert st. induction fuel as [|fuel IH]; intros st; simpl; [done|].
  destruct (start_first st) as [st'|] eqn:Hs; [|done].
  eapply rtc_l; [by apply pool_start_first|apply IH].
Qed.

(** C1, as the code has it: [process_directory] creates a pool of five
    permits in every call, so a tree with two directories has two pools.
    With three files to convert in each, all six conversions hold a permit
    at the same time: more than [MAX_CONCURRENT_OPERATIONS]. *)
Theorem permit_pool_is_per_directory :
  let ss := plan sample_tree_wide ["in"] ["out"] in
  let st := start_all 6 (init ss) in
  semaphores ss = [["in"]; ["in"; "sub"]]
  ∧ reachable ss st
  ∧ length (running st) = 6
  ∧ MAX_CONCURRENT_OPERATIONS = 5
  ∧ in_flight ["in"] st = 3
  ∧ in_flight ["in"; "sub"] st = 3.
Proof.
  intros ss st. split_and!; try (vm_compute; reflexivity).
  apply pool_start_all.
Qed.

End pool.

(** * Keys are unique within a run *)

Section keys.

Implicit Types (s : string) (p q : path).

Lemma chars_app s1 s2 :
  list_ascii_of_string (s1 +:+ s2)
  = list_ascii_of_string s1 ++ list_ascii_of_string s2.
Proof. induction s1 as [|c s1 IH]; simpl; [done|]. by rewrite IH. Qed.

Lemma chars_inj s1 s2 :
  list_ascii_of_string s1 = list_ascii_of_string s2 → s1 = s2.
Proof.
  intros H. rewrite <- (string_of_list_ascii_of_string s1),
    <- (string_of_list_ascii_of_string s2). by rewrite H.
Qed.

(** The characters after the first component of [str p]. *)
Definition tail_chars (cs : list string) : list ascii :=
  flat_map (fun x => "/"%char :: list_ascii_of_string x) cs.

Lemma chars_str c cs :
  list_ascii_of_string (PyPath.str (c :: cs))
  = list_ascii_of_string c ++ tail_chars cs.
Proof.
  simpl. revert c. induction cs as [|x cs IH]; intros c; simpl.
  - by rewrite app_nil_r.
  - rewrite IH, !chars_app; simpl. by rewrite <- app_assoc.
Qed.

Lemma tail_chars_head (cs : list string) :
  tail_chars cs = [] ∨ ∃ r0, tail_chars cs = "/"%char :: r0.
Proof. destruct cs; simpl; eauto. Qed.

Lemma split_at_separator (a a' r r' : list ascii) :
  "/"%char ∉ a → "/"%char ∉ a' →
  (r = [] ∨ ∃ r0, r = "/"%char :: r0) →
  (r' = [] ∨ ∃ r0, r' = "/"%char :: r0) →
  a ++ r = a' ++ r' → a = a' ∧ r = r'.
Proof.
  revert a'. induction a as [|x a IH]; intros [|y a'] Ha Ha' Hr Hr' Heq;
    simpl in Heq.
  - done.
  - destruct Hr as [->|[r0 ->]]; [done|]. injection Heq as <- _.
    destruct Ha'. by left.
  - destruct Hr' as [->|[r0 ->]]; [done|]. injection Heq as -> _.
    destruct Ha. by left.
  - injection Heq as -> Heq.
    destruct (IH a') as [-> ->]; try done.
    + intros Hin. apply Ha. by right.
    + intros Hin. apply Ha'. by right.
Qed.

Lemma tail_chars_inj (cs cs' : list string) :
  Forall slash_free cs → Forall slash_free cs' →
  tail_chars cs = tail_chars cs' → cs = cs'.
Proof.
  intros Hcs. revert cs'.
  induction Hcs as [|x cs Hx _ IH]; intros [|y cs'] Hcs' Heq; simpl in Heq;
    try done.
  apply Forall_cons in Hcs' as [Hy Hcs']. injection Heq as Heq.
  apply split_at_separator in Heq as [Hxy Hrest];
    [|done|done|apply tail_chars_head..].
  apply chars_inj in Hxy as ->. f_equal. by apply IH.
Qed.

(** Distinct relative paths have distinct keys. *)
Lemma str_inj p q :
  p ≠ [] → q ≠ [] → Forall slash_free p → Forall slash_free q →
  PyPath.str p = PyPath.str q → p = q.
Proof.
  destruct p as [|c cs]; [done|]. destruct q as [|c' cs']; [done|].
  intros _ _ Hp Hq Heq.
  apply Forall_cons in Hp as [Hc Hcs]. apply Forall_cons in Hq as [Hc' Hcs'].
  apply (f_equal list_ascii_of_string) in Heq. rewrite !chars_str in Heq.
  apply split_at_separator in Heq as [Hcc Htl];
    [|done|done|apply tail_chars_head..].
  apply chars_inj in Hcc as ->. f_equal. by apply tail_chars_inj.
Qed.

Lemma task_rels_directory children :
  task_rels (Directory children)
  = map (fun c => [c.1]) (glob_png children) ++ rels_below children.
Proof. done. Qed.

Lemma rels_below_cons nm c children :
  rels_below ((nm, c) :: children)
  = match c with
    | Directory _ => map (cons nm) (task_rels c)
    | File _ => []
    end ++ rels_below children.
Proof. done. Qed.

Lemma task_keys_app base (ss1 ss2 : list step) :
  task_keys base (ss1 ++ ss2) = task_keys base ss1 ++ task_keys base ss2.
Proof. apply omap_app. Qed.

Lemma task_keys_files base (r : path) output_path sem
    (l : list (string * node)) :
  task_keys base
    (map (fun c => StepFile (PyPath.join (base ++ r) c.1) c.2 output_path sem) l)
  = map (fun rel => PyPath.str (r ++ rel)) (map (fun c => [c.1]) l).
Proof.
  induction l as [|[nm c] l IHl]; [done|].
  change (key_of base (PyPath.join (base ++ r) nm)
          :: task_keys base
               (map (fun c => StepFile (PyPath.join (base ++ r) c.1) c.2
                                output_path sem) l)
          = PyPath.str (r ++ [nm])
            :: map (fun rel => PyPath.str (r ++ rel)) (map (fun c => [c.1]) l)).
  rewrite IHl. f_equal. unfold key_of, PyPath.join.
  by rewrite <- app_assoc, relative_to_app.
Qed.

(** The keys of the plan are the relative paths of its file tasks. *)
Lemma task_keys_rels n base (r : path) output_path :
  task_keys base (plan n (base ++ r) output_path)
  = map (fun rel => PyPath.str (r ++ rel)) (task_rels n).
Proof.
  revert r output_path.
  induction n as [content|children IH] using node_ind'; intros r o; [done|].
  rewrite plan_directory, task_rels_directory.
  change (task_keys base
            (map (fun c => StepFile (PyPath.join (base ++ r) c.1) c.2 o
                             (base ++ r)) (glob_png children)
             ++ subplans children (base ++ r) o)
          = map (fun rel => PyPath.str (r ++ rel))
              (map (fun c => [c.1]) (glob_png children)
               ++ rels_below children)).
  rewrite task_keys_app, map_app, task_keys_files. f_equal.
  induction IH as [|[nm c] children Hc _ IHc]; [done|].
  rewrite subplans_cons, rels_below_cons, task_keys_app, map_app.
  rewrite IHc. f_equal. destruct c as [content|cs]; [done|].
  unfold PyPath.join. rewrite <- app_assoc.
  cbn [snd] in Hc. rewrite (Hc (r ++ [nm]) (o ++ [nm])).
  rewrite map_map. apply map_ext.
  intros rel. by rewrite <- app_assoc.
Qed.

Lemma task_rels_shape n rel :
  wf_tree n → rel ∈ task_rels n → rel ≠ [] ∧ Forall slash_free rel.
Proof.
  revert rel. induction n as [content|children IH] using node_ind';
    intros rel Hwf Hrel; [by apply elem_of_nil in Hrel|].
  inversion Hwf as [|? _ Hfree Hsub]; subst.
  rewrite task_rels_directory in Hrel. apply elem_of_app in Hrel as [Hrel|Hrel].
  - apply list_elem_of_fmap in Hrel as ([nm c] & -> & Hin).
    apply list_elem_of_In, filter_In in Hin as [Hin _].
    apply list_elem_of_In in Hin.
    rewrite Forall_forall in Hfree. split; [done|].
    constructor; [by apply (Hfree (nm, c))|constructor].
  - induction children as [|[nm c] children IHc]; [by apply elem_of_nil in Hrel|].
    apply Forall_cons in IH as [IHhd IHtl].
    apply Forall_cons in Hfree as [Hnm Hfree].
    apply Forall_cons in Hsub as [Hc Hsub].
    rewrite rels_below_cons in Hrel. apply elem_of_app in Hrel as [Hrel|Hrel].
    + destruct c as [content|cs]; [by apply elem_of_nil in Hrel|].
      apply list_elem_of_fmap in Hrel as (rel' & -> & Hrel').
      destruct (IHhd rel' Hc Hrel') as [_ Hf]. split; [done|by constructor].
    + apply IHc; try done.
      inversion Hwf as [|? Hnd _ _]; subst. simpl in Hnd.
      apply NoDup_cons in Hnd as [_ Hnd]. by constructor.
Qed.

Lemma rels_below_head children rel :
  rel ∈ rels_below children →
  ∃ nm rel', rel = nm :: rel' ∧ nm ∈ children.*1 ∧ rel' ≠ []
             ∧ ∃ c, (nm, c) ∈ children ∧ rel' ∈ task_rels c.
Proof.
  induction children as [|[nm c] children IH]; intros Hrel;
    [by apply elem_of_nil in Hrel|].
  rewrite rels_below_cons in Hrel. apply elem_of_app in Hrel as [Hrel|Hrel].
  - destruct c as [content|cs]; [by apply elem_of_nil in Hrel|].
    apply list_elem_of_fmap in Hrel as (rel' & -> & Hrel').
    exists nm, rel'. split_and!; [done|by left| |].
    + intros ->. rewrite task_rels_directory in Hrel'.
      apply elem_of_app in Hrel' as [H|H].
      * apply list_elem_of_fmap in H as (? & ? & _). done.
      * clear -H. induction cs as [|[nm' c'] cs IHcs];
          [by apply elem_of_nil in H|].
        rewrite rels_below_cons in H. apply elem_of_app in H as [H|H]; [|auto].
        destruct c'; [by apply elem_of_nil in H|].
        apply list_elem_of_fmap in H as (? & ? & _). done.
    + exists (Directory cs). split; [by left|done].
  - destruct (IH Hrel) as (nm' & rel' & -> & Hnm & Hne & c' & Hc' & Hr').
    exists nm', rel'. split_and!; [done|by right|done|].
    exists c'. split; [by right|done].
Qed.

Lemma glob_png_names_NoDup (children : list (string * node)) :
  NoDup children.*1 → NoDup (glob_png children).*1.
Proof.
  induction children as [|[nm c] children IH]; intros Hnd; [constructor|].
  apply NoDup_cons in Hnd as [Hnm Hnd]. unfold glob_png; simpl.
  destruct (PyPath.matches_png nm); [|by apply IH].
  simpl. apply NoDup_cons. split; [|by apply IH].
  intros Hin. apply Hnm.
  apply list_elem_of_fmap in Hin as ([nm' c'] & -> & Hin).
  apply list_elem_of_In, filter_In in Hin as [Hin _].
  apply list_elem_of_fmap. exists (nm', c'). split; [done|].
  by apply list_elem_of_In.
Qed.

Lemma rels_below_NoDup (children : list (string * node)) :
  NoDup children.*1 →
  Forall (fun c => NoDup (task_rels c.2)) children →
  NoDup (rels_below children).
Proof.
  induction children as [|[nm c] children IH]; intros Hnd Hall; [constructor|].
  apply NoDup_cons in Hnd as [Hnm Hnd]. apply Forall_cons in Hall as [Hc Hall].
  rewrite rels_below_cons. apply NoDup_app. split_and!.
  - destruct c as [content|cs]; [constructor|].
    by apply (NoDup_fmap_2 (cons nm)).
  - intros rel Hrel Hbelow.
    destruct c as [content|cs]; [by apply elem_of_nil in Hrel|].
    apply list_elem_of_fmap in Hrel as (rel0 & -> & _).
    apply rels_below_head in Hbelow as (nm' & rel' & [= <- _] & Hin & _).
    done.
  - by apply IH.
Qed.

Lemma task_rels_NoDup n : wf_tree n → NoDup (task_rels n).
Proof.
  induction n as [content|children IH] using node_ind'; intros Hwf;
    [constructor|].
  inversion Hwf as [|? Hnd _ Hsub]; subst.
  rewrite task_rels_directory. apply NoDup_app. split_and!.
  - rewrite <- (map_map fst (fun nm => [nm])).
    apply (NoDup_fmap_2 (fun nm : string => [nm])).
    by apply glob_png_names_NoDup.
  - intros rel Hrel Hbelow.
    apply list_elem_of_fmap in Hrel as ([nm c] & -> & _).
    apply rels_below_head in Hbelow as (nm' & rel' & [= _ <-] & _ & Hne & _).
    done.
  - apply rels_below_NoDup; [done|].
    rewrite Forall_forall in IH, Hsub. apply Forall_forall.
    intros c Hc. by apply IH, Hsub.
Qed.

(** The invariant of the data model: the keys of a run over a well-formed
    tree are pairwise distinct. *)
Lemma wf_tree_keys_NoDup (tree : node) (input_path output_path : path) :
  wf_tree tree →
  NoDup (task_keys input_path (plan tree input_path output_path)).
Proof.
  intros Hwf.
  pose proof (task_keys_rels tree input_path [] output_path) as Hkeys.
  rewrite app_nil_r in Hkeys. rewrite Hkeys.
  apply (NoDup_fmap_2_strong (fun rel => PyPath.str ([] ++ rel)));
    [|by apply task_rels_NoDup].
  intros p q Hp Hq Heq; simpl in Heq.
  destruct (task_rels_shape _ _ Hwf Hp), (task_rels_shape _ _ Hwf Hq).
  by apply str_inj.
Qed.

End keys.

(** * More on [save_lock_file]: the folders of the document *)

Section folders.

Implicit Types (files : list (string * hashes)) (k folder : string) (e : entry).

(** [files_put] updates the first folder of that name, or appends a new
    folder when there is none. *)
Lemma files_put_cases folder k e files :
  (∃ l1 fm0 l2,
      files = l1 ++ (folder, fm0) :: l2 ∧ (folder ∉ l1.*1)
      ∧ files_put folder k e files = l1 ++ (folder, <[k := e]> fm0) :: l2)
  ∨ ((folder ∉ files.*1)
     ∧ files_put folder k e files = files ++ [(folder, {[k := e]})]).
Proof.
  induction files as [|[f m] files IH]; simpl.
  - right. split; [by intros ?%elem_of_nil|done].
  - destruct (decide (f = folder)) as [->|Hne].
    + left. exists [], m, files. split_and!; [done|by intros ?%elem_of_nil|done].
    + destruct IH as [(l1 & fm0 & l2 & -> & Hl1 & ->)|[Hnot ->]].
      * left. exists ((f, m) :: l1), fm0, l2. split_and!; [done| |done].
        simpl. intros [?|?]%elem_of_cons; [congruence|done].
      * right. split; [|done].
        intros [?|?]%elem_of_cons; [congruence|done].
Qed.

Lemma files_put_names_NoDup folder k e files :
  NoDup files.*1 → NoDup (files_put folder k e files).*1.
Proof.
  intros Hnd.
  destruct (files_put_cases folder k e files)
    as [(l1 & fm0 & l2 & Hfiles & _ & ->)|[Hnot ->]].
  - rewrite Hfiles in Hnd. by rewrite fmap_app, fmap_cons in *.
  - rewrite fmap_app. apply NoDup_app. split_and!; [done| |].
    + intros f Hf [->|?%elem_of_nil]%elem_of_cons; done.
    + apply NoDup_singleton.
Qed.

(** X1: in the document [save_lock_file] builds, the folder names are
    distinct and no folder is empty; every entry of a folder is an entry of
    the cache, filed under the folder its ["folder"] field names (["root"]
    without the field); and every entry of the cache is filed there. *)
Theorem organize_files_by_folder (h : hashes) :
  NoDup (organize h).*1
  ∧ (∀ folder fm, (folder, fm) ∈ organize h →
       fm ≠ ∅
       ∧ ∀ k e, fm !! k = Some e → h !! k = Some e ∧ folder_of e = folder)
  ∧ ∀ k e, h !! k = Some e →
      ∃ fm, (folder_of e, fm) ∈ organize h ∧ fm !! k = Some e.
Proof.
  unfold organize.
  apply (map_fold_weak_ind (fun files (m : hashes) =>
    NoDup files.*1
    ∧ (∀ folder fm, (folder, fm) ∈ files →
         fm ≠ ∅
         ∧ ∀ k e, fm !! k = Some e → m !! k = Some e ∧ folder_of e = folder)
    ∧ ∀ k e, m !! k = Some e →
        ∃ fm, (folder_of e, fm) ∈ files ∧ fm !! k = Some e)).
  - split_and!; [constructor|by intros ?? ?%elem_of_nil|].
    intros k e Hk. by rewrite lookup_empty in Hk.
  - intros k e m files Hfresh (Hnd & Hin & Hall).
    assert (∀ folder fm k' e', (folder, fm) ∈ files → fm !! k' = Some e' →
              k' ≠ k ∧ <[k := e]> m !! k' = Some e' ∧ folder_of e' = folder)
      as Hold.
    { intros folder fm k' e' Hf Hk'.
      destruct (Hin folder fm Hf) as [_ Hfm].
      destruct (Hfm k' e' Hk') as [Hm ?].
      assert (k' ≠ k) by congruence.
      by rewrite lookup_insert_ne. }
    split_and!.
    + by apply files_put_names_NoDup.
    + intros folder fm Hf.
      destruct (files_put_cases (folder_of e) k e files)
        as [(l1 & fm0 & l2 & Hfiles & _ & Hput)|[_ Hput]];
        rewrite Hput in Hf.
      * apply elem_of_app in Hf as [Hf|[Hf|Hf]%elem_of_cons].
        -- assert ((folder, fm) ∈ files) as Hf'.
           { rewrite Hfiles. apply elem_of_app. by left. }
           split; [by apply (Hin folder fm)|].
           intros k' e' Hk'. by destruct (Hold _ _ _ _ Hf' Hk') as (_ & ? & ?).
        -- injection Hf as -> ->. split.
           { intros Hempty. apply (f_equal (fun m0 => m0 !! k)) in Hempty.
             by rewrite lookup_insert_eq, lookup_empty in Hempty. }
           intros k' e' Hk'. destruct (decide (k' = k)) as [->|Hne].
           ++ rewrite lookup_insert_eq in Hk'. injection Hk' as <-.
              by rewrite lookup_insert_eq.
           ++ rewrite lookup_insert_ne in Hk' by done.
              assert ((folder_of e, fm0) ∈ files) as Hf'.
              { rewrite Hfiles. apply elem_of_app. right. by left. }
              by destruct (Hold _ _ _ _ Hf' Hk') as (_ & ? & ?).
        -- assert ((folder, fm) ∈ files) as Hf'.
           { rewrite Hfiles. apply elem_of_app. right. by right. }
           split; [by apply (Hin folder fm)|].
           intros k' e' Hk'. by destruct (Hold _ _ _ _ Hf' Hk') as (_ & ? & ?).
      * apply elem_of_app in Hf as [Hf|Hf].
        -- split; [by apply (Hin folder fm)|].
           intros k' e' Hk'. by destruct (Hold _ _ _ _ Hf Hk') as (_ & ? & ?).
        -- apply list_elem_of_singleton in Hf. injection Hf as -> ->. split.
           { intros Hempty. apply (f_equal (fun m0 => m0 !! k)) in Hempty.
             by rewrite lookup_singleton_eq, lookup_empty in Hempty. }
           intros k' e' Hk'. apply lookup_singleton_Some in Hk' as [<- <-].
           by rewrite lookup_insert_eq.
    + intros k' e' Hk'.
      destruct (files_put_cases (folder_of e) k e files)
        as [(l1 & fm0 & l2 & Hfiles & _ & Hput)|[_ Hput]]; rewrite Hput.
      * destruct (decide (k' = k)) as [->|Hne].
        -- rewrite lookup_insert_eq in Hk'. injection Hk' as <-.
           exists (<[k := e]> fm0). split; [|by rewrite lookup_insert_eq].
           apply elem_of_app. right. by left.
        -- rewrite lookup_insert_ne in Hk' by done.
           destruct (Hall k' e' Hk') as (fm & Hf & Hfm).
           rewrite Hfiles in Hf.
           apply elem_of_app in Hf as [Hf|[Hf|Hf]%elem_of_cons].
           ++ exists fm. split; [|done]. apply elem_of_app. by left.
           ++ injection Hf as Hfolder ->. exists (<[k := e]> fm0). split.
              ** rewrite Hfolder. apply elem_of_app. right. by left.
              ** by rewrite lookup_insert_ne.
           ++ exists fm. split; [|done]. apply elem_of_app. right. by right.
      * destruct (decide (k' = k)) as [->|Hne].
        -- rewrite lookup_insert_eq in Hk'. injection Hk' as <-.
           exists {[k := e]}. split; [|by rewrite lookup_singleton_eq].
           apply elem_of_app. right. by left.
        -- rewrite lookup_insert_ne in Hk' by done.
           destruct (Hall k' e' Hk') as (fm & Hf & Hfm).
           exists fm. split; [|done]. apply elem_of_app. by left.
Qed.

Lemma folder_total_app files1 files2 :
  folder_total (files1 ++ files2) = folder_total files1 + folder_total files2.
Proof. unfold folder_total. by rewrite map_app, list_sum_app. Qed.

Lemma folder_total_files_put folder k e files :
  Forall (fun fm => fm.2 !! k = None) files →
  folder_total (files_put folder k e files) = S (folder_total files).
Proof.
  intros Hfresh.
  destruct (files_put_cases folder k e files)
    as [(l1 & fm0 & l2 & Hfiles & _ & ->)|[_ ->]].
  - rewrite Hfiles in *. rewrite !folder_total_app.
    apply Forall_app in Hfresh as [_ Hfresh].
    apply Forall_cons in Hfresh as [Hfm0 _]. simpl in Hfm0.
    unfold folder_total; simpl. rewrite map_size_insert_None by done. lia.
  - rewrite folder_total_app. unfold folder_total at 2; simpl.
    rewrite map_size_singleton. lia.
Qed.

(** X2: the [total_files] of the metadata is the number of entries the
    folders of the same document hold. *)
Theorem total_files_counts_entries (E : env) (h : hashes) (w : world) :
  match organized_hashes E h w with
  | DocNested (Some meta) files =>
      total_files meta = folder_total files ∧ version meta = "1.0"
  | _ => False
  end.
Proof.
  simpl. split; [|done]. symmetry. unfold organize.
  refine (proj2 (map_fold_weak_ind (fun files (m : hashes) =>
    flatten files = m ∧ folder_total files = size m) _ _ _ _ h)).
  - by rewrite map_size_empty.
  - intros k e m files Hfresh [Hflat Htotal].
    assert (Forall (fun fm => fm.2 !! k = None) files) as Hnone.
    { apply flatten_lookup_None. by rewrite Hflat. }
    split.
    + by rewrite flatten_files_put, Hflat.
    + rewrite folder_total_files_put, Htotal by done.
      by rewrite map_size_insert_None.
Qed.

End folders.

(** * More on the file tasks and the walk *)

Section tasks.

Context (E : env) (conversion_hashes : hashes).

#[local] Existing Instance extends_preorder.

Implicit Types (w : world) (nh : hashes) (ss : list step) (n : node).

(** ** What a file task leaves alone *)

Lemma convert_and_record_frame png_file n webp_file relative_path input_hash
    sem nh w nh' w' :
  convert_and_record E png_file n webp_file relative_path input_hash sem nh w
  = (nh', w') →
  (∀ k, k ≠ PyPath.str relative_path → nh' !! k = nh !! k)
  ∧ (∀ q, q ≠ webp_file → w_files w' !! q = w_files w !! q).
Proof.
  unfold convert_and_record.
  destruct (convert_image _ _ _ _ _ _ _) as [oh w2] eqn:Hconv.
  apply convert_image_cases in Hconv
    as [(c & webp & _ & _ & _ & -> & ->)|(-> & cause & -> & _)].
  - destruct (truthy _); intros [= <- <-]; simpl; split; try done.
    + intros k Hk. by rewrite lookup_insert_ne.
    + intros q Hq. by rewrite lookup_insert_ne.
    + intros q Hq. by rewrite lookup_insert_ne.
  - simpl. by intros [= <- <-].
Qed.

Lemma process_file_frame png_file n output_path base sem nh w nh' w' :
  process_file E png_file n output_path conversion_hashes base sem nh w
    = Ok (nh', w') →
  (∀ k, k ≠ key_of base png_file → nh' !! k = nh !! k)
  ∧ (∀ q, q ≠ webp_file_of png_file output_path →
          w_files w' !! q = w_files w !! q).
Proof.
  unfold process_file.
  destruct (PyPath.relative_to png_file base) as [relative_path|] eqn:Hrel;
    [|done].
  rewrite (key_of_relative _ _ _ Hrel).
  destruct n as [content|cs]; simpl; [|done].
  destruct (reusable _ _ _ _ _) as [[e|]| |]; simpl; [| |done..].
  - intros [= <- <-]. split; [|done].
    intros k Hk. by rewrite lookup_insert_ne.
  - intros [= Hconv]. by apply convert_and_record_frame in Hconv.
Qed.

(** What a file task needs to return at all. *)
Lemma process_file_Ok_task png_file n output_path base sem nh w nh' w' :
  process_file E png_file n output_path conversion_hashes base sem nh w
    = Ok (nh', w') →
  (∃ content, n = File content)
  ∧ is_Some (PyPath.relative_to png_file base)
  ∧ ∀ e, conversion_hashes !! key_of base png_file = Some e →
         is_Some (e !! "input_hash").
Proof.
  unfold process_file.
  destruct (PyPath.relative_to png_file base) as [relative_path|] eqn:Hrel;
    [|done].
  rewrite (key_of_relative _ _ _ Hrel).
  destruct n as [content|cs]; simpl; [|done].
  unfold reusable.
  destruct (conversion_hashes !! PyPath.str relative_path) as [e|] eqn:Hc.
  - destruct (e !! "input_hash") as [stored|] eqn:Hs; [|done].
    intros _. split_and!; [by exists content|done|]. by intros e' [= <-].
  - intros _. split_and!; [by exists content|done|done].
Qed.

Lemma process_file_returns png_file n output_path base sem nh w :
  process_file E png_file n output_path conversion_hashes base sem nh w
    = Suspended → False.
Proof.
  unfold process_file.
  destruct (PyPath.relative_to png_file base) as [relative_path|]; [|done].
  destruct n as [content|cs]; simpl; [|done].
  unfold reusable.
  destruct (conversion_hashes !! PyPath.str relative_path) as [e|]; [|done].
  destruct (e !! "input_hash") as [stored|]; [|done].
  by destruct (bool_decide _ && _).
Qed.

(** X3: a file task that returns has read a regular file under the base; it
    changes no entry of [new_hashes] but the one of its own key, no file
    but its own artifact, and no directory, JSON file or lock; the log only
    grows. *)
Theorem file_task_touches_own_key_and_artifact (png_file : path) (n : node)
    (output_path base : path) (sem : semaphore) (nh nh' : hashes)
    (w w' : world) :
  process_file E png_file n output_path conversion_hashes base sem nh w
    = Ok (nh', w') →
  (∃ content, n = File content)
  ∧ is_Some (PyPath.relative_to png_file base)
  ∧ (∀ k, k ≠ key_of base png_file → nh' !! k = nh !! k)
  ∧ (∀ q, q ≠ webp_file_of png_file output_path →
          w_files w' !! q = w_files w !! q)
  ∧ w_dirs w' = w_dirs w
  ∧ w_lock w' = w_lock w
  ∧ w_locks w' = w_locks w
  ∧ w_log w `prefix_of` w_log w'.
Proof.
  intros Hp.
  destruct (process_file_Ok_task _ _ _ _ _ _ _ _ _ Hp) as (Hfile & Hrel & _).
  destruct (process_file_frame _ _ _ _ _ _ _ _ _ Hp) as [Hkeys Hfiles].
  apply process_file_spec in Hp as ((_ & _ & Hlock & Hlocks & Hlog & _) & Hdirs & _).
  by split_and!.
Qed.

(** X4: a conversion that goes through.  When the cache does not vouch for
    the file, the encoder accepts it, the output directory exists, the
    artifact path is no directory and the digest of the artifact is not the
    empty string, the task writes the encoded bytes to the artifact and
    records an entry holding the digest of the source, the digest of the
    bytes now in the artifact, the parent of the relative path, both file
    names and the time of the conversion; the clock moves on by one and the
    log gains the announcement and the confirmation. *)
Theorem conversion_records_what_it_wrote (png_file relative_path : path)
    (content webp : bytes) (output_path base : path) (sem : semaphore)
    (nh : hashes) (w : world) :
  PyPath.relative_to png_file base = Some relative_path →
  reusable conversion_hashes (PyPath.str relative_path)
    (sha256_hexdigest E content) (webp_file_of png_file output_path) w
    = Ok None →
  pil_encode E WEBP_SETTINGS png_file content = Encoded webp →
  is_dir w output_path = true →
  is_dir w (webp_file_of png_file output_path) = false →
  sha256_hexdigest E webp ≠ "" →
  ∃ w',
    process_file E png_file (File content) output_path conversion_hashes base
      sem nh w
    = Ok (<[PyPath.str relative_path :=
              new_entry (sha256_hexdigest E content) (sha256_hexdigest E webp)
                (PyPath.str (PyPath.parent relative_path))
                (PyPath.name png_file)
                (PyPath.stem png_file +:+ ".webp")
                (isoformat E (w_clock w))]> nh, w')
    ∧ w_files w' = <[webp_file_of png_file output_path := webp]> (w_files w)
    ∧ w_clock w' = S (w_clock w)
    ∧ w_log w'
      = w_log w
        ++ [InfoConverting (folder_display_of relative_path)
              (PyPath.name png_file);
            InfoConverted (folder_display_of relative_path)
              (PyPath.name png_file)].
Proof.
  intros Hrel Hre Henc Hparent Hfree Hsha.
  assert (PyPath.parent (webp_file_of png_file output_path) = output_path)
    as Hpar.
  { unfold webp_file_of, PyPath.join, PyPath.parent. apply removelast_last. }
  assert (PyPath.name (webp_file_of png_file output_path)
          = PyPath.stem png_file +:+ ".webp") as Hname.
  { unfold webp_file_of, PyPath.join, PyPath.name. by rewrite last_snoc. }
  unfold process_file. rewrite Hrel; simpl.
  unfold _calculate_file_hash. rewrite Hre; simpl.
  unfold convert_and_record, convert_image, pil_save.
  rewrite Henc, Hpar.
  replace (is_dir (logger _ w) output_path) with true by done.
  replace (is_dir (logger _ w) (webp_file_of png_file output_path))
    with false by done.
  simpl. rewrite lookup_insert_eq. simpl.
  unfold _calculate_file_hash.
  destruct (String.eqb_spec (sha256_hexdigest E webp) "") as [?|_]; [done|].
  simpl. rewrite Hname. eexists. split_and!; [done|done|done|].
  simpl. by rewrite <- app_assoc.
Qed.

(** ** What a walk leaves alone *)

Lemma run_steps_frame base ss nh w nh' w' :
  run_steps E conversion_hashes base ss nh w = Ok (nh', w') →
  (∀ q, (∀ p n o sem, StepFile p n o sem ∈ ss → q ≠ webp_file_of p o) →
        w_files w' !! q = w_files w !! q)
  ∧ ∀ q, q ∈ w_dirs w' →
         q ∈ w_dirs w ∨ ∃ o, StepMkdir o ∈ ss ∧ q ∈ with_parents o.
Proof.
  revert nh w. induction ss as [|s ss IH]; intros nh w; simpl.
  - intros [= <- <-]. split; [done|]. intros q Hq. by left.
  - destruct (run_step E conversion_hashes base s nh w) as [[nh1 w1]| |] eqn:Hs;
      simpl; [|done..].
    intros Hrest. apply IH in Hrest as [Hfiles Hdirs].
    assert ((∀ q, (∀ p n o sem, s = StepFile p n o sem → q ≠ webp_file_of p o) →
                  w_files w1 !! q = w_files w !! q)
            ∧ ∀ q, q ∈ w_dirs w1 →
                   q ∈ w_dirs w ∨ ∃ o, s = StepMkdir o ∧ q ∈ with_parents o)
      as [Hfiles1 Hdirs1].
    { destruct s as [o|sem|p n o sem|i]; simpl in Hs; [| | |done].
      - destruct (mkdir_parents o w) as [wm| |] eqn:Hmk; simpl in Hs; [|done..].
        injection Hs as <- <-. apply mkdir_parents_Ok in Hmk as [-> _].
        split; [done|]. simpl. intros q [Hq|Hq]%elem_of_union; [by left|].
        right. exists o. split; [done|]. by apply elem_of_list_to_set in Hq.
      - injection Hs as <- <-. split; [done|]. intros q Hq. by left.
      - destruct (process_file_frame _ _ _ _ _ _ _ _ _ Hs) as [_ Hf].
        apply process_file_spec in Hs as (_ & Hd & _). split.
        + intros q Hq. apply Hf. by apply (Hq p n o sem).
        + intros q Hq. left. by rewrite <- Hd. }
    split.
    + intros q Hq. rewrite Hfiles.
      * apply Hfiles1. intros p n o sem ->. apply (Hq p n o sem). by left.
      * intros p n o sem Hin. apply (Hq p n o sem). by right.
    + intros q Hq. destruct (Hdirs q Hq) as [Hq1|(o & Hin & Hqo)].
      * destruct (Hdirs1 q Hq1) as [?|(o & -> & Hqo)]; [by left|].
        right. exists o. split; [by left|done].
      * right. exists o. split; [by right|done].
Qed.

(** The directories of a plan lie under the output root. *)
Lemma plan_mkdir_shape n input_path output_path o :
  StepMkdir o ∈ plan n input_path output_path → output_path `prefix_of` o.
Proof.
  revert input_path output_path.
  induction n as [content|children IH] using node_ind';
    intros input_path output_path Hin.
  { simpl in Hin. apply list_elem_of_singleton in Hin. done. }
  rewrite plan_directory in Hin.
  apply elem_of_cons in Hin as [[= ->]|Hin]; [done|].
  apply elem_of_cons in Hin as [?|Hin]; [done|].
  apply elem_of_app in Hin as [Hin|Hin].
  - apply list_elem_of_fmap in Hin as ([nm c] & ? & _). done.
  - induction IH as [|[nm c] children Hc _ IHc]; [by apply elem_of_nil in Hin|].
    rewrite subplans_cons in Hin. apply elem_of_app in Hin as [Hin|Hin]; [|auto].
    destruct c as [content|cs]; [by apply elem_of_nil in Hin|].
    apply Hc in Hin. etrans; [|exact Hin]. by apply prefix_app_r.
Qed.

Lemma with_parents_prefix (p q : path) : q ∈ with_parents p → q `prefix_of` p.
Proof.
  unfold with_parents. intros (k & -> & _)%list_elem_of_fmap.
  exists (drop k p). by rewrite take_drop.
Qed.

(** X5: a walk that returns has written files only below the output root
    and created directories only on the way to it or below it; it has
    touched no JSON file and no lock. *)
Theorem walk_stays_below_output_root (tree : node)
    (input_path output_path : path) (base_input_path : option path)
    (w w' : world) (new_hashes : hashes) :
  process_directory E tree input_path output_path conversion_hashes
    base_input_path w = Ok (new_hashes, w') →
  (∀ q, ¬ output_path `prefix_of` q → w_files w' !! q = w_files w !! q)
  ∧ (∀ q, q ∈ w_dirs w' →
          q ∈ w_dirs w ∨ q `prefix_of` output_path ∨ output_path `prefix_of` q)
  ∧ w_lock w' = w_lock w
  ∧ w_locks w' = w_locks w.
Proof.
  rewrite process_directory_plan. intros Hrun.
  destruct (run_steps_frame _ _ _ _ _ _ Hrun) as [Hfiles Hdirs].
  apply run_steps_spec in Hrun as ((_ & _ & Hlock & Hlocks & _) & _).
  split_and!; [| |done..].
  - intros q Hq. apply Hfiles. intros p n o sem Hin ->.
    apply plan_file_shape in Hin as (rel & nm & _ & -> & _).
    apply Hq. unfold webp_file_of, PyPath.join. rewrite <- app_assoc.
    by apply prefix_app_r.
  - intros q Hq. destruct (Hdirs q Hq) as [?|(o & Hin & Hqo)]; [by left|].
    right. apply plan_mkdir_shape in Hin. apply with_parents_prefix in Hqo.
    by apply (prefix_weak_total _ _ o).
Qed.

(** ** Walks that cannot return *)

Lemma run_steps_Ok_tasks base ss nh w nh' w' :
  run_steps E conversion_hashes base ss nh w = Ok (nh', w') →
  ∀ p n o sem, StepFile p n o sem ∈ ss →
    (∃ content, n = File content)
    ∧ ∀ e, conversion_hashes !! key_of base p = Some e →
           is_Some (e !! "input_hash").
Proof.
  revert nh w. induction ss as [|s ss IH]; intros nh w; simpl.
  - intros _ p n o sem Hin. by apply elem_of_nil in Hin.
  - destruct (run_step E conversion_hashes base s nh w) as [[nh1 w1]| |] eqn:Hs;
      simpl; [|done..].
    intros Hrest p n o sem [<-|Hin]%elem_of_cons; [|by eapply IH].
    simpl in Hs. apply process_file_Ok_task in Hs as (? & _ & ?). done.
Qed.

Lemma run_steps_returns base ss nh w :
  run_steps E conversion_hashes base ss nh w = Suspended → False.
Proof.
  revert nh w. induction ss as [|s ss IH]; intros nh w; simpl; [done|].
  destruct (run_step E conversion_hashes base s nh w) as [[nh1 w1]| |] eqn:Hs;
    simpl; [by apply IH|done|].
  intros _. destruct s as [o|sem|p n o sem|i]; simpl in Hs; [|done| |done].
  - unfold mkdir_parents in Hs. destruct (List.find _ _) as [q|]; [|done].
    by destruct (decide (q = o)).
  - by apply process_file_returns in Hs.
Qed.

(** X6: [glob("*.png")] yields directories too.  When one of the file tasks
    of a walk is a directory, the walk raises, whatever else the tree
    holds. *)
Theorem directory_named_png_aborts_walk (tree : node)
    (input_path output_path : path) (base_input_path : option path)
    (w : world) (png_file : path) (children : list (string * node))
    (o : path) (sem : semaphore) :
  StepFile png_file (Directory children) o sem
    ∈ plan tree input_path output_path →
  ∃ e, process_directory E tree input_path output_path conversion_hashes
         base_input_path w = Raised e.
Proof.
  intros Hin. rewrite process_directory_plan.
  destruct (run_steps _ _ _ _ _ _) as [[nh' w']|e|] eqn:Hrun.
  - destruct (run_steps_Ok_tasks _ _ _ _ _ _ Hrun _ _ _ _ Hin) as [[c ?] _].
    done.
  - by exists e.
  - by apply run_steps_returns in Hrun.
Qed.

(** X7: a cached entry without an ["input_hash"] is not treated as stale.
    When the cache holds such an entry under the key of one of the file
    tasks, the walk raises. *)
Theorem entry_without_input_hash_aborts_walk (tree : node)
    (input_path output_path : path) (w : world) (png_file : path) (n : node)
    (o : path) (sem : semaphore) (e : entry) :
  StepFile png_file n o sem ∈ plan tree input_path output_path →
  conversion_hashes !! key_of input_path png_file = Some e →
  e !! "input_hash" = None →
  ∃ x, process_directory E tree input_path output_path conversion_hashes
         None w = Raised x.
Proof.
  intros Hin Hc He. rewrite process_directory_plan; simpl.
  destruct (run_steps _ _ _ _ _ _) as [[nh' w']|x|] eqn:Hrun.
  - destruct (run_steps_Ok_tasks _ _ _ _ _ _ Hrun _ _ _ _ Hin) as [_ Hkey].
    destruct (Hkey e Hc) as [stored Hs]. congruence.
  - by exists x.
  - by apply run_steps_returns in Hrun.
Qed.

(** ** Files that get an entry *)

Lemma process_file_entry_made png_file content webp output_path base sem nh w
    nh' w' :
  process_file E png_file (File content) output_path conversion_hashes base
    sem nh w = Ok (nh', w') →
  pil_encode E WEBP_SETTINGS png_file content = Encoded webp →
  sha256_hexdigest E webp ≠ "" →
  is_dir w output_path = true →
  is_dir w (webp_file_of png_file output_path) = false →
  is_Some (nh' !! key_of base png_file).
Proof.
  intros Hp Henc Hsha Hparent Hfree. revert Hp. unfold process_file.
  destruct (PyPath.relative_to png_file base) as [relative_path|] eqn:Hrel;
    [|done].
  rewrite (key_of_relative _ _ _ Hrel). simpl.
  destruct (reusable _ _ _ _ _) as [[e|]| |]; simpl; [| |done..].
  - intros [= <- <-]. by rewrite lookup_insert_eq.
  - assert (PyPath.parent (webp_file_of png_file output_path) = output_path)
      as Hpar.
    { unfold webp_file_of, PyPath.join, PyPath.parent. apply removelast_last. }
    unfold convert_and_record, convert_image, pil_save.
    rewrite Henc, Hpar.
    replace (is_dir (logger _ w) output_path) with true by done.
    replace (is_dir (logger _ w) (webp_file_of png_file output_path))
      with false by done.
    simpl. rewrite lookup_insert_eq. simpl.
    unfold _calculate_file_hash.
    destruct (String.eqb_spec (sha256_hexdigest E webp) "") as [?|_]; [done|].
    simpl. intros [= <- <-]. by rewrite lookup_insert_eq.
Qed.

Lemma run_steps_keeps_keys base ss nh w nh' w' k :
  run_steps E conversion_hashes base ss nh w = Ok (nh', w') →
  is_Some (nh !! k) → is_Some (nh' !! k).
Proof.
  revert nh w. induction ss as [|s ss IH]; intros nh w; simpl.
  - by intros [= <- <-].
  - destruct (run_step E conversion_hashes base s nh w) as [[nh1 w1]| |] eqn:Hs;
      simpl; [|done..].
    intros Hrest Hk. apply (IH _ _ Hrest).
    apply run_step_spec in Hs
      as (_ & _ & _ & [->|(p & n & o & sem & e & _ & -> & _)]); [done|].
    destruct (decide (key_of base p = k)) as [->|Hne].
    + by rewrite lookup_insert_eq.
    + by rewrite lookup_insert_ne.
Qed.

(** A file task that runs after the creation of its output directory, and
    whose file the encoder accepts, leaves an entry under its key. *)
Lemma run_steps_entry_made base ss1 ss2 nh w nh' w' png_file content webp o sem :
  run_steps E conversion_hashes base
    (ss1 ++ StepFile png_file (File content) o sem :: ss2) nh w
    = Ok (nh', w') →
  StepMkdir o ∈ ss1 →
  pil_encode E WEBP_SETTINGS png_file content = Encoded webp →
  sha256_hexdigest E webp ≠ "" →
  is_dir w' (webp_file_of png_file o) = false →
  is_Some (nh' !! key_of base png_file).
Proof.
  intros Hrun Hmk Henc Hsha Hfree.
  rewrite run_steps_app in Hrun.
  destruct (run_steps E conversion_hashes base ss1 nh w) as [[nh1 w1]| |] eqn:H1;
    simpl in Hrun; [|done..].
  destruct (process_file E png_file (File content) o conversion_hashes base
              sem nh1 w1) as [[nh2 w2]| |] eqn:H2; simpl in Hrun; [|done..].
  apply (run_steps_keeps_keys _ _ _ _ _ _ _ Hrun).
  apply run_steps_spec in H1 as (_ & Hdirs & _).
  assert (extends w1 w') as Hext.
  { etrans; [by eapply process_file_spec|by eapply run_steps_spec]. }
  apply (process_file_entry_made _ _ _ _ _ _ _ _ _ _ H2 Henc Hsha).
  - unfold is_dir. destruct o as [|c o]; [done|].
    rewrite orb_true_iff, !bool_decide_eq_true. right.
    apply (Hdirs (c :: o)); [done|].
    unfold with_parents. apply list_elem_of_fmap.
    exists (length (c :: o)). split; [by rewrite firstn_all|].
    apply list_elem_of_In, in_seq. simpl. lia.
  - destruct (is_dir w1 (webp_file_of png_file o)) eqn:Hd; [|done].
    by rewrite (is_dir_extends _ _ _ Hext Hd) in Hfree.
Qed.

(** ** The log of a walk *)

Lemma convert_and_record_records png_file n webp_file relative_path input_hash
    sem nh w :
  ∃ records,
    w_log (convert_and_record E png_file n webp_file relative_path input_hash
             sem nh w).2
    = w_log w
      ++ InfoConverting (folder_display_of relative_path) (PyPath.name png_file)
         :: records
    ∧ List.filter is_converting records = []
    ∧ List.filter is_skipping records = [].
Proof.
  unfold convert_and_record.
  destruct (convert_image _ _ _ _ _ _ _) as [oh w2] eqn:Hconv.
  apply convert_image_cases in Hconv
    as [(c & webp & _ & _ & _ & -> & ->)|(-> & cause & -> & _)].
  - destruct (truthy _); simpl; rewrite <- app_assoc; simpl;
      eexists; split_and!; done.
  - simpl. rewrite <- !app_assoc. simpl. eexists; split_and!; done.
Qed.

(** A file task logs one decision: it skips a file the cache knows, or it
    announces a conversion. *)
Lemma process_file_records png_file n output_path base sem nh w nh' w' :
  process_file E png_file n output_path conversion_hashes base sem nh w
    = Ok (nh', w') →
  ∃ records,
    w_log w' = w_log w ++ records
    ∧ length (List.filter is_converting records)
      + length (List.filter is_skipping records) = 1
    ∧ (List.filter is_skipping records = []
       ∨ is_Some (conversion_hashes !! key_of base png_file)).
Proof.
  unfold process_file.
  destruct (PyPath.relative_to png_file base) as [relative_path|] eqn:Hrel;
    [|done].
  rewrite (key_of_relative _ _ _ Hrel).
  destruct n as [content|cs]; simpl; [|done].
  destruct (reusable _ _ _ _ _) as [[e|]| |] eqn:Hre; simpl; [| |done..].
  - intros [= <- <-]. apply reusable_Some in Hre as (Hc & _).
    eexists. split_and!; [done|done|]. right. by rewrite Hc.
  - intros [= Hconv].
    destruct (convert_and_record_records png_file (File content)
                (webp_file_of png_file output_path) relative_path
                (_calculate_file_hash E content) sem nh w)
      as (records & Hlog & Hconvs & Hskips).
    rewrite Hconv in Hlog; simpl in Hlog.
    eexists. split; [exact Hlog|]. simpl. rewrite Hconvs, Hskips.
    split; [done|by left].
Qed.

Lemma run_steps_records base ss nh w nh' w' :
  run_steps E conversion_hashes base ss nh w = Ok (nh', w') →
  ∃ records,
    w_log w' = w_log w ++ records
    ∧ length (List.filter is_converting records)
      + length (List.filter is_skipping records)
      = length (task_keys base ss)
    ∧ (conversion_hashes = ∅ → List.filter is_skipping records = []).
Proof.
  revert nh w. induction ss as [|s ss IH]; intros nh w; simpl.
  - intros [= <- <-]. exists []. by rewrite app_nil_r.
  - destruct (run_step E conversion_hashes base s nh w) as [[nh1 w1]| |] eqn:Hs;
      simpl; [|done..].
    intros Hrest. apply IH in Hrest as (r2 & Hlog2 & Hcount2 & Hskip2).
    assert (∃ r1, w_log w1 = w_log w ++ r1
                  ∧ length (List.filter is_converting r1)
                    + length (List.filter is_skipping r1)
                    = length (task_keys base [s])
                  ∧ (conversion_hashes = ∅ → List.filter is_skipping r1 = []))
      as (r1 & Hlog1 & Hcount1 & Hskip1).
    { destruct s as [o|sem|p n o sem|i]; simpl in Hs; [| | |done].
      - destruct (mkdir_parents o w) as [wm| |] eqn:Hmk; simpl in Hs; [|done..].
        injection Hs as <- <-. apply mkdir_parents_Ok in Hmk as [-> _].
        exists []. by rewrite app_nil_r.
      - injection Hs as <- <-. exists []. by rewrite app_nil_r.
      - apply process_file_records in Hs as (r1 & ? & ? & Hskip).
        exists r1. split_and!; [done|done|].
        intros ->. destruct Hskip as [?|[e He]]; [done|].
        by rewrite lookup_empty in He. }
    exists (r1 ++ r2). split_and!.
    + by rewrite Hlog2, Hlog1, app_assoc.
    + rewrite !List.filter_app, !length_app.
      unfold task_keys in *. destruct s; simpl in *; lia.
    + intros Hempty. rewrite List.filter_app, Hskip1, Hskip2; done.
Qed.

Lemma task_keys_length base ss :
  length (task_keys base ss) = length (List.filter is_file_task ss).
Proof.
  unfold task_keys. induction ss as [|[] ss IH]; simpl;
    [done|exact IH|exact IH|f_equal; exact IH|exact IH].
Qed.

(** X8: a walk that returns has logged one decision for every file task,
    and nothing else that looks like one: the records it added hold as many
    skips and announcements of a conversion, taken together, as the walk has
    file tasks. *)
Theorem walk_logs_one_decision_per_file (tree : node)
    (input_path output_path : path) (base_input_path : option path)
    (w w' : world) (new_hashes : hashes) :
  process_directory E tree input_path output_path conversion_hashes
    base_input_path w = Ok (new_hashes, w') →
  ∃ records,
    w_log w' = w_log w ++ records
    ∧ length (List.filter is_converting records)
      + length (List.filter is_skipping records)
      = length (List.filter is_file_task (plan tree input_path output_path)).
Proof.
  rewrite process_directory_plan. intros Hrun.
  apply run_steps_records in Hrun as (records & Hlog & Hcount & _).
  exists records. split; [done|]. by rewrite Hcount, task_keys_length.
Qed.

End tasks.

(** * More on a whole run *)

(** X9: a run that starts without a lock file skips nothing.  When it
    returns, the records it added to the log hold no skip, one announcement
    of a conversion for every file task, and the completion notice at the
    end. *)
Theorem first_run_converts_every_file (E : env) (tree : node)
    (input_path output_path : path) (w w' : world) :
  w_lock w !! lock_file_of output_path = None →
  async_main E tree input_path output_path w = Ok w' →
  ∃ records,
    w_log w' = w_log w ++ records
    ∧ List.filter is_skipping records = []
    ∧ length (List.filter is_converting records)
      = length (List.filter is_file_task (plan tree input_path output_path))
    ∧ last records = Some InfoCompleted.
Proof.
  intros Hnone Hrun.
  apply async_main_Ok in Hrun
    as (wa & cache & wb & new & wc & wd & Hmk & Hload & Hwalk & Hsave & ->).
  apply mkdir_parents_Ok in Hmk as [-> _].
  unfold load_lock_file in Hload; simpl in Hload. rewrite Hnone in Hload.
  injection Hload as <- <-.
  rewrite process_directory_plan in Hwalk; simpl in Hwalk.
  apply run_steps_records in Hwalk as (records & Hlog & Hcount & Hskip).
  destruct (save_lock_file_ok E (lock_file_of output_path) new wc)
    as (wd' & Hsave' & _ & _ & _ & Hlogd).
  rewrite Hsave in Hsave'. injection Hsave' as <-.
  specialize (Hskip eq_refl).
  exists (records ++ [InfoCompleted]). split_and!.
  - simpl. rewrite Hlogd, Hlog. simpl. by rewrite app_assoc.
  - by rewrite List.filter_app, Hskip.
  - rewrite List.filter_app, length_app; simpl.
    rewrite Hskip in Hcount; simpl in Hcount.
    rewrite <- (task_keys_length input_path). lia.
  - by rewrite last_snoc.
Qed.

(** X10: a run that returns leaves a lock file that holds a whole document
    in the nested format, whose [total_files] is the number of its entries
    and which [load_lock_file] reads back; the completion notice is the last
    record of the log. *)
Theorem completed_run_leaves_loadable_cache (E : env) (tree : node)
    (input_path output_path : path) (w w' : world) :
  async_main E tree input_path output_path w = Ok w' →
  ∃ new_hashes meta files w'',
    w_lock w' !! lock_file_of output_path
    = Some (Holds (DocNested (Some meta) files))
    ∧ flatten files = new_hashes
    ∧ total_files meta = size new_hashes
    ∧ version meta = "1.0"
    ∧ load_lock_file (lock_file_of output_path) w' = Ok (new_hashes, w'')
    ∧ last (w_log w') = Some InfoCompleted.
Proof.
  intros Hrun.
  apply async_main_Ok in Hrun
    as (wa & cache & wb & new & wc & wd & _ & _ & _ & Hsave & ->).
  destruct (save_lock_file_ok E (lock_file_of output_path) new wc)
    as (wd' & Hsave' & Hlock & _).
  rewrite Hsave in Hsave'. injection Hsave' as <-.
  assert (w_lock (logger InfoCompleted wd) !! lock_file_of output_path
          = Some (Holds (organized_hashes E new wc))) as Hheld.
  { simpl. by rewrite Hlock, lookup_insert_eq. }
  pose proof (load_lock_file_holds _ _ _ Hheld) as Hload; simpl in Hload.
  rewrite flatten_organize in Hload.
  eexists new, _, (organize new), _. split_and!.
  - exact Hheld.
  - apply flatten_organize.
  - done.
  - done.
  - exact Hload.
  - simpl. by rewrite last_snoc.
Qed.


(** X12: the cache a run persists is complete for the files that convert.
    In a well-formed tree, a file the encoder accepts, whose artifact has a
    digest and whose artifact path is not taken by a directory, has an entry
    in the persisted cache when the run returns, with the hash of the file
    and with its artifact in place. *)
Theorem encodable_file_is_persisted (E : env) (tree : node)
    (input_path output_path : path) (w w' : world) (png_file : path)
    (content webp : bytes) (o : path) (sem : semaphore) :
  wf_tree tree →
  StepFile png_file (File content) o sem
    ∈ plan tree input_path output_path →
  pil_encode E WEBP_SETTINGS png_file content = Encoded webp →
  sha256_hexdigest E webp ≠ "" →
  is_dir w' (webp_file_of png_file o) = false →
  async_main E tree input_path output_path w = Ok w' →
  ∃ e,
    persisted w' (lock_file_of output_path) !! key_of input_path png_file
    = Some e
    ∧ e !! "input_hash" = Some (sha256_hexdigest E content)
    ∧ path_exists w' (webp_file_of png_file o) = true.
Proof.
  intros Hwf Hin Henc Hsha Hfree Hrun.
  apply async_main_Ok in Hrun
    as (wa & cache & wb & new & wc & wd & _ & _ & Hwalk & Hsave & ->).
  destruct (save_lock_file_ok E (lock_file_of output_path) new wc)
    as (wd' & Hsave' & Hlock & Hfiles & Hdirs & _).
  rewrite Hsave in Hsave'. injection Hsave' as <-.
  rewrite (persisted_after_save E _ new wc) by done.
  rewrite process_directory_plan in Hwalk; simpl in Hwalk.
  assert (is_dir wc (webp_file_of png_file o) = false) as Hfree'.
  { rewrite <- Hfree. symmetry. by apply is_dir_same. }
  assert (∃ children, tree = Directory children) as [children ->].
  { destruct tree as [c|children]; [|by eexists].
    simpl in Hin. by apply list_elem_of_singleton in Hin. }
  pose proof (plan_schedule_node (Directory children) input_path output_path)
    as Hsched.
  apply schedule_order in Hsched as [_ Horder].
  destruct (list_elem_of_split _ _ Hin) as (ss1 & ss2 & Hplan).
  assert (StepMkdir o ∈ ss1) as Hmk.
  { apply (Horder ss1 _ ss2 o Hplan); [|simpl; reflexivity].
    apply plan_file_shape in Hin as (rel & nm & _ & -> & _).
    by apply prefix_app_r. }
  pose proof Hwalk as Hwalk'. rewrite Hplan in Hwalk'.
  destruct (run_steps_entry_made E cache _ _ _ _ _ _ _ _ _ _ _ _
              Hwalk' Hmk Henc Hsha Hfree') as [e He].
  exists e. split; [done|].
  pose proof (wf_tree_keys_NoDup _ input_path output_path Hwf) as Hnd.
  pose proof (run_steps_entry_of_task E cache _ _ _ _ _ _ _ _ _ _
                Hnd Hwalk Hin He) as (c & [= <-] & _ & Hh & Hex & _).
  split; [done|]. rewrite <- Hex. by apply path_exists_same.
Qed.

(** X13: a lock file that was opened for writing and never written stops
    the next run.  Once the output directory is there, the run raises the
    decoding error of [load_lock_file] before it walks the tree. *)
Theorem truncated_lock_file_aborts_run (E : env) (tree : node)
    (input_path output_path : path) (w wa : world) :
  w_lock w !! lock_file_of output_path = Some Truncated →
  mkdir_parents output_path w = Ok wa →
  async_main E tree input_path output_path w = Raised JSONDecodeError.
Proof.
  intros Hl Hmk. unfold async_main. rewrite Hmk; simpl.
  apply mkdir_parents_Ok in Hmk as [-> _].
  unfold load_lock_file; simpl. rewrite Hl.
  unfold Lock.acquire; simpl. by rewrite list_lookup_middle.
Qed.

(** X14: in a well-formed tree, two file tasks with the same cache key are
    the same task: no file of a run shares its key with another. *)
Theorem distinct_files_have_distinct_keys (tree : node)
    (input_path output_path : path) (p1 p2 : path) (n1 n2 : node)
    (o1 o2 : path) (s1 s2 : semaphore) :
  wf_tree tree →
  StepFile p1 n1 o1 s1 ∈ plan tree input_path output_path →
  StepFile p2 n2 o2 s2 ∈ plan tree input_path output_path →
  key_of input_path p1 = key_of input_path p2 →
  p1 = p2 ∧ n1 = n2 ∧ o1 = o2 ∧ s1 = s2.
Proof.
  intros Hwf H1 H2 Hkey.
  pose proof (wf_tree_keys_NoDup _ input_path output_path Hwf) as Hnd.
  assert (StepFile p1 n1 o1 s1 = StepFile p2 n2 o2 s2) as Heq.
  { eapply (omap_NoDup_inj _ _ _ _ (key_of input_path p1) Hnd H1 H2);
      simpl; congruence. }
  by simplify_eq.
Qed.

(** * More on the permit pools *)

Section pool_accounting.

Import Pool.

(** X15: whatever the tasks do, a pool never has more than
    [MAX_CONCURRENT_OPERATIONS] conversions in flight, and the permits it
    has left and the conversions that hold one add up to that number; no
    conversion runs on a pool that was not created. *)
Theorem pool_conserves_permits (ss : list step) (st : state)
    (sem : semaphore) :
  reachable ss st →
  (in_flight sem st ≤ MAX_CONCURRENT_OPERATIONS)%nat
  ∧ match permits st !! sem with
    | Some free => free + in_flight sem st = MAX_CONCURRENT_OPERATIONS
    | None => in_flight sem st = 0
    end.
Proof.
  intros Hreach.
  assert (invariant st) as Hinv.
  { revert st Hreach. apply (rtc_ind_r invariant (init ss)).
    - apply pool_init_invariant.
    - intros st st' _ Htr Hinv. by eapply pool_transition_invariant. }
  specialize (Hinv sem). split; [|done].
  destruct (permits st !! sem); lia.
Qed.

End pool_accounting.

(** * The added properties on the samples *)

Lemma sample_task_ok :
  process_file sample_env ["in"; "a.png"] (File []) ["out"] ∅ ["in"] ["in"] ∅
    sample_ready
  = Ok (sample_task_hashes, sample_task_world).
Proof.
  vm_cast_no_check (eq_refl (Ok (sample_task_hashes, sample_task_world))).
Qed.

Lemma sample_tree_wf : wf_tree sample_tree.
Proof.
  apply wf_directory; simpl.
  - apply NoDup_singleton.
  - repeat constructor. apply (bool_decide_unpack _). vm_compute. exact I.
  - repeat constructor.
Qed.

Lemma sample_tree_bad_wf : wf_tree sample_tree_bad.
Proof.
  apply wf_directory; simpl.
  - apply (bool_decide_unpack _). vm_compute. exact I.
  - repeat constructor; apply (bool_decide_unpack _); vm_compute; exact I.
  - repeat constructor.
Qed.


Lemma sample_artifact_is_no_directory :
  is_dir sample_after_first (webp_file_of ["in"; "a.png"] ["out"]) = false.
Proof. vm_cast_no_check (eq_refl false). Qed.

Lemma sample_digest_not_empty : sha256_hexdigest sample_env [] ≠ "".
Proof. intros H. vm_compute in H. discriminate H. Qed.

(** X3 on the task of [in/a.png]. *)
Lemma file_task_touches_own_key_and_artifact_witness :
  (∃ content, File [] = File content)
  ∧ is_Some (PyPath.relative_to ["in"; "a.png"] ["in"])
  ∧ (∀ k, k ≠ key_of ["in"] ["in"; "a.png"] →
          sample_task_hashes !! k = (∅ : hashes) !! k)
  ∧ (∀ q, q ≠ webp_file_of ["in"; "a.png"] ["out"] →
          w_files sample_task_world !! q = w_files sample_ready !! q)
  ∧ w_dirs sample_task_world = w_dirs sample_ready
  ∧ w_lock sample_task_world = w_lock sample_ready
  ∧ w_locks sample_task_world = w_locks sample_ready
  ∧ w_log sample_ready `prefix_of` w_log sample_task_world.
Proof.
  apply (file_task_touches_own_key_and_artifact sample_env ∅ ["in"; "a.png"]
           (File []) ["out"] ["in"] ["in"] ∅ sample_task_hashes sample_ready
           sample_task_world).
  exact sample_task_ok.
Defined.

(** X4 on the task of [in/a.png]. *)
Lemma conversion_records_what_it_wrote_witness :
  ∃ w',
    process_file sample_env ["in"; "a.png"] (File []) ["out"] ∅ ["in"] ["in"]
      ∅ sample_ready
    = Ok (<[PyPath.str ["a.png"] :=
              new_entry (sha256_hexdigest sample_env [])
                (sha256_hexdigest sample_env [])
                (PyPath.str (PyPath.parent ["a.png"]))
                (PyPath.name ["in"; "a.png"])
                (PyPath.stem ["in"; "a.png"] +:+ ".webp")
                (isoformat sample_env (w_clock sample_ready))]> ∅, w')
    ∧ w_files w'
      = <[webp_file_of ["in"; "a.png"] ["out"] := []]> (w_files sample_ready)
    ∧ w_clock w' = S (w_clock sample_ready)
    ∧ w_log w'
      = w_log sample_ready
        ++ [InfoConverting (folder_display_of ["a.png"])
              (PyPath.name ["in"; "a.png"]);
            InfoConverted (folder_display_of ["a.png"])
              (PyPath.name ["in"; "a.png"])].
Proof.
  apply (conversion_records_what_it_wrote sample_env ∅ ["in"; "a.png"]
           ["a.png"] [] [] ["out"] ["in"] ["in"] ∅ sample_ready).
  - reflexivity.
  - reflexivity.
  - vm_compute. reflexivity.
  - vm_compute. reflexivity.
  - vm_compute. reflexivity.
  - exact sample_digest_not_empty.
Defined.

(** X5 on the walk over [sample_tree_bad]. *)
Lemma walk_stays_below_output_root_witness :
  (∀ q, ¬ ["out"] `prefix_of` q →
        w_files sample_walk_world !! q = w_files sample_world !! q)
  ∧ (∀ q, q ∈ w_dirs sample_walk_world →
          q ∈ w_dirs sample_world ∨ q `prefix_of` ["out"]
          ∨ ["out"] `prefix_of` q)
  ∧ w_lock sample_walk_world = w_lock sample_world
  ∧ w_locks sample_walk_world = w_locks sample_world.
Proof.
  apply (walk_stays_below_output_root sample_env ∅ sample_tree_bad ["in"]
           ["out"] None sample_world sample_walk_world sample_walk_hashes).
  exact sample_walk_ok.
Defined.

(** X6 on the directory [in/x.png/]. *)
Lemma directory_named_png_aborts_walk_witness :
  ∃ e, process_directory sample_env sample_tree_png_dir ["in"] ["out"] ∅ None
         sample_world = Raised e.
Proof.
  apply (directory_named_png_aborts_walk sample_env ∅ sample_tree_png_dir
           ["in"] ["out"] None sample_world ["in"; "x.png"] [] ["out"] ["in"]).
  cbn. apply list_elem_of_further, list_elem_of_further, list_elem_of_here.
Defined.

(** X7 on [sample_tree], with a cache whose entry for [a.png] is empty. *)
Lemma entry_without_input_hash_aborts_walk_witness :
  ∃ x, process_directory sample_env sample_tree ["in"] ["out"]
         sample_cache_no_hash None sample_world = Raised x.
Proof.
  apply (entry_without_input_hash_aborts_walk sample_env sample_cache_no_hash
           sample_tree ["in"] ["out"] sample_world ["in"; "a.png"] (File [])
           ["out"] ["in"] ∅).
  - cbn. apply list_elem_of_further, list_elem_of_further, list_elem_of_here.
  - vm_compute. reflexivity.
  - reflexivity.
Defined.

(** X8 on the walk over [sample_tree_bad]. *)
Lemma walk_logs_one_decision_per_file_witness :
  ∃ records,
    w_log sample_walk_world = w_log sample_world ++ records
    ∧ length (List.filter is_converting records)
      + length (List.filter is_skipping records)
      = length (List.filter is_file_task (plan sample_tree_bad ["in"] ["out"])).
Proof.
  apply (walk_logs_one_decision_per_file sample_env ∅ sample_tree_bad ["in"]
           ["out"] None sample_world sample_walk_world sample_walk_hashes).
  exact sample_walk_ok.
Defined.

(** X9 on the first run over [sample_tree]. *)
Lemma first_run_converts_every_file_witness :
  ∃ records,
    w_log sample_after_first = w_log sample_world ++ records
    ∧ List.filter is_skipping records = []
    ∧ length (List.filter is_converting records)
      = length (List.filter is_file_task (plan sample_tree ["in"] ["out"]))
    ∧ last records = Some InfoCompleted.
Proof.
  apply (first_run_converts_every_file sample_env sample_tree ["in"] ["out"]
           sample_world sample_after_first).
  - reflexivity.
  - exact sample_first_run_ok.
Defined.

(** X10 on the first run over [sample_tree]. *)
Lemma completed_run_leaves_loadable_cache_witness :
  ∃ new_hashes meta files w'',
    w_lock sample_after_first !! lock_file_of ["out"]
    = Some (Holds (DocNested (Some meta) files))
    ∧ flatten files = new_hashes
    ∧ total_files meta = size new_hashes
    ∧ version meta = "1.0"
    ∧ load_lock_file (lock_file_of ["out"]) sample_after_first
      = Ok (new_hashes, w'')
    ∧ last (w_log sample_after_first) = Some InfoCompleted.
Proof.
  apply (completed_run_leaves_loadable_cache sample_env sample_tree ["in"]
           ["out"] sample_world sample_after_first).
  exact sample_first_run_ok.
Defined.


(** X12 on [in/a.png] and the first run over [sample_tree]. *)
Lemma encodable_file_is_persisted_witness :
  ∃ e,
    persisted sample_after_first (lock_file_of ["out"])
      !! key_of ["in"] ["in"; "a.png"] = Some e
    ∧ e !! "input_hash" = Some (sha256_hexdigest sample_env [])
    ∧ path_exists sample_after_first (webp_file_of ["in"; "a.png"] ["out"])
      = true.
Proof.
  apply (encodable_file_is_persisted sample_env sample_tree ["in"] ["out"]
           sample_world sample_after_first ["in"; "a.png"] [] [] ["out"]
           ["in"]).
  - exact sample_tree_wf.
  - cbn. apply list_elem_of_further, list_elem_of_further, list_elem_of_here.
  - vm_compute. reflexivity.
  - exact sample_digest_not_empty.
  - exact sample_artifact_is_no_directory.
  - exact sample_first_run_ok.
Defined.

(** X13 on a world whose lock file is truncated. *)
Lemma truncated_lock_file_aborts_run_witness :
  async_main sample_env sample_tree ["in"] ["out"] sample_world_truncated
  = Raised JSONDecodeError.
Proof.
  apply (truncated_lock_file_aborts_run sample_env sample_tree ["in"] ["out"]
           sample_world_truncated
           (set_dirs (fun ds => ds ∪ list_to_set (with_parents ["out"]))
              sample_world_truncated)).
  - vm_compute. reflexivity.
  - reflexivity.
Defined.

(** X14 on [in/ok.png] in [sample_tree_bad]. *)
Lemma distinct_files_have_distinct_keys_witness :
  ["in"; "ok.png"] = ["in"; "ok.png"] ∧ File [] = File []
  ∧ ["out"] = ["out"] ∧ ["in"] = ["in"].
Proof.
  apply (distinct_files_have_distinct_keys sample_tree_bad ["in"] ["out"]
           ["in"; "ok.png"] ["in"; "ok.png"] (File []) (File [])
           ["out"] ["out"] ["in"] ["in"]).
  - exact sample_tree_bad_wf.
  - cbn. do 3 apply list_elem_of_further. apply list_elem_of_here.
  - cbn. do 3 apply list_elem_of_further. apply list_elem_of_here.
  - reflexivity.
Defined.

(** X15 on [sample_tree_wide], after every conversion has taken a permit. *)
Lemma pool_conserves_permits_witness :
  let ss := plan sample_tree_wide ["in"] ["out"] in
  let st := Pool.start_all 6 (Pool.init ss) in
  (Pool.in_flight ["in"] st ≤ MAX_CONCURRENT_OPERATIONS)%nat
  ∧ match Pool.permits st !! (["in"] : path) with
    | Some free => free + Pool.in_flight ["in"] st = MAX_CONCURRENT_OPERATIONS
    | None => Pool.in_flight ["in"] st = 0
    end.
Proof.
  intros ss st.
  apply (pool_conserves_permits ss st ["in"]).
  apply pool_start_all.
Defined.
